(** * fix_nlp_format.py: expansion of collapsed Python code blocks

    A shallow embedding of [fix_nlp_format.py] and the properties of its two
    functions, [fix_code_block_line] (the line expander) and [main] (the
    line-by-line document rewriter).

    Python strings are sequences of Unicode code points: a character is a
    code point ([N]) and a string a list of them.  The string methods the
    script calls ([in], [find], [split], [replace], [strip], [rstrip],
    [startswith], slicing) are defined in [Module Py] with the semantics of
    CPython. *)

From Equations Require Import Equations.
From Stdlib Require Import String Ascii.
From Stdlib Require Import List NArith ZArith Bool Arith Wf_nat Lia.
Import ListNotations.

Set Equations Transparent.

Definition char := N.
Definition str := list char.

(** An ASCII literal as a Python string. *)
Definition py (s : string) : str := map N_of_ascii (list_ascii_of_string s).

Module Py.

(** [s == t] *)
Fixpoint eqb (s t : str) : bool :=
  match s, t with
  | [], [] => true
  | a :: s', b :: t' => N.eqb a b && eqb s' t'
  | _, _ => false
  end.

(** [s.startswith(p)] *)
Fixpoint startswith (p s : str) : bool :=
  match p, s with
  | [], _ => true
  | _ :: _, [] => false
  | a :: p', b :: s' => N.eqb a b && startswith p' s'
  end.

(** Index of the leftmost occurrence of [p] in [s], if any. *)
Fixpoint index_of (p s : str) : option nat :=
  if startswith p s then Some 0
  else match s with
       | [] => None
       | _ :: s' => option_map S (index_of p s')
       end.

(** [p in s] *)
Definition contains (p s : str) : bool :=
  match index_of p s with Some _ => true | None => false end.

(** [s.find(p)]: the lowest index, or [-1]. *)
Definition find (p s : str) : Z :=
  match index_of p s with Some i => Z.of_nat i | None => (-1)%Z end.

(** Slice bounds: a negative index counts from the end, and every index
    is clipped to the string. *)
Definition clip (s : str) (i : Z) : nat :=
  if (i <? 0)%Z then Z.to_nat (Z.max 0 (Z.of_nat (length s) + i)) else Z.to_nat i.

(** [s[:i]] *)
Definition slice_to (s : str) (i : Z) : str := firstn (clip s i) s.

(** [s[i:]] *)
Definition slice_from (s : str) (i : Z) : str := skipn (clip s i) s.

(** [c.isspace()]: the code points CPython treats as whitespace. *)
Definition isspace (c : char) : bool :=
  ((9 <=? c) && (c <=? 13) || (28 <=? c) && (c <=? 32)
   || (c =? 133) || (c =? 160) || (c =? 5760)
   || (8192 <=? c) && (c <=? 8202)
   || (c =? 8232) || (c =? 8233) || (c =? 8239) || (c =? 8287)
   || (c =? 12288))%N.

(** [s.lstrip()] *)
Fixpoint lstrip (s : str) : str :=
  match s with
  | [] => []
  | c :: s' => if isspace c then lstrip s' else s
  end.

(** [s.rstrip()] *)
Definition rstrip (s : str) : str := rev (lstrip (rev s)).

(** [s.strip()] *)
Definition strip (s : str) : str := rstrip (lstrip s).

(** A value together with the equation that it is the value of [x]. *)
Definition inspect {A : Type} (x : A) : {y : A | x = y} := exist _ x eq_refl.

(** [s.split(sep)] for a separator given explicitly: the pieces between the
    leftmost non-overlapping occurrences of [sep].  (Python raises
    [ValueError] on an empty separator; the script only passes a
    two-character constant, and the empty case is mapped to [[s]].) *)
Equations? split (sep s : str) : list str by wf (length s) lt :=
  split [] s := [s];
  split (c :: sep') s with inspect (index_of (c :: sep') s) := {
    | exist _ None _ := [s];
    | exist _ (Some i) _ :=
        firstn i s :: split (c :: sep') (skipn (i + length (c :: sep')) s) }.
Proof.
  destruct s as [|a s]; [simpl in e; discriminate|].
  rewrite length_skipn. cbn [length]. lia.
Qed.

(** [s.replace(old, new)]: every leftmost non-overlapping occurrence of
    [old] becomes [new].  (With an empty [old] Python inserts [new] around
    every character; the script only passes non-empty constants, and the
    empty case is mapped to [s].) *)
Equations? replace (old new s : str) : str by wf (length s) lt :=
  replace [] new s := s;
  replace (c :: old') new s with inspect (index_of (c :: old') s) := {
    | exist _ None _ := s;
    | exist _ (Some i) _ :=
        firstn i s ++ new ++ replace (c :: old') new (skipn (i + length (c :: old')) s) }.
Proof.
  destruct s as [|a s]; [simpl in e; discriminate|].
  rewrite length_skipn. cbn [length]. lia.
Qed.

(** [enumerate(l)] *)
Fixpoint enumerate_from {A} (i : Z) (l : list A) : list (Z * A) :=
  match l with
  | [] => []
  | x :: l' => (i, x) :: enumerate_from (i + 1) l'
  end.

Definition enumerate {A} (l : list A) : list (Z * A) := enumerate_from 0 l.

(** Truth value of a string: non-empty. *)
Definition truthy (s : str) : bool :=
  match s with [] => false | _ :: _ => true end.

(** [len(s)] *)
Definition len {A} (l : list A) : Z := Z.of_nat (length l).

End Py.

(** ** The constants of the script *)

Definition NL : str := [10%N].                    (* a newline character *)
Definition esc : str := [92%N; 110%N].            (* backslash, n *)
Definition esc_esc : str := [92%N; 92%N; 110%N].  (* backslash, backslash, n *)
Definition esc_quote : str := [92%N; 34%N].       (* backslash, double quote *)
Definition quote : str := [34%N].                 (* double quote *)
Definition fence : str := py "```".
Definition fence_python : str := py "```python".

(** ** fix_code_block_line *)

(** One iteration of [for i, part in enumerate(parts)], on the list [result]
    built so far; [n] is [len(parts)]. *)
Definition expand_part (n : Z) (result : list str) (ip : Z * str) : list str :=
  let '(i, part) := ip in
  if Py.truthy part then
    let part := Py.replace esc_esc NL part in
    let part := Py.replace esc_quote quote part in
    result ++ [part ++ NL]
  else if (i <? n - 1)%Z then
    result ++ [NL]
  else result.

Definition fix_code_block_line (line : str) : list str :=
  if negb (Py.contains esc line) then [line]
  else
    let parts := Py.split esc line in
    fold_left (expand_part (Py.len parts)) (Py.enumerate parts) [].

(** ** main: the scan loop *)

(** The loop's variables: the output list and the fence flag. *)
Record scan_state := { result : list str; in_python_block : bool }.

Definition initial : scan_state := {| result := []; in_python_block := false |}.

(** The body of [while i < len(lines)] on [line = lines[i]]. *)
Definition process_line (st : scan_state) (line : str) : scan_state :=
  if Py.eqb (Py.strip line) fence_python
     || Py.startswith (fence_python ++ NL) (Py.strip line) then
    {| result := result st ++ [line]; in_python_block := true |}
  else if Py.startswith fence (Py.strip line) && in_python_block st then
    {| result := result st ++ [line]; in_python_block := false |}
  else if Py.contains fence_python line && (20 <? Py.len line)%Z
          && negb (Py.eqb (Py.strip line) fence_python) then
    let idx := Py.find fence_python line in
    let result1 :=
      if (0 <? idx)%Z then result st ++ [Py.rstrip (Py.slice_to line idx) ++ NL]
      else result st in
    let result2 := result1 ++ [fence_python ++ NL] in
    let rest := Py.slice_from line (idx + 9) in
    let expanded := fix_code_block_line rest in
    {| result := result2 ++ expanded; in_python_block := true |}
  else if in_python_block st && Py.contains esc line && (150 <? Py.len line)%Z then
    let expanded := fix_code_block_line line in
    {| result := result st ++ expanded; in_python_block := in_python_block st |}
  else
    {| result := result st ++ [line]; in_python_block := in_python_block st |}.

(** The whole loop: [i] runs over the indices of [lines] in order. *)
Definition scan_from (st : scan_state) (lines : list str) : scan_state :=
  fold_left process_line lines st.

Definition scan (lines : list str) : scan_state := scan_from initial lines.

(** The document the loop builds. *)
Definition rewrite_document (lines : list str) : list str := result (scan lines).

(** ** main: the file, the read and the write *)

(** The target file: absent, present with bytes that are not UTF-8, or
    present with the text its bytes decode to. *)
Inductive file :=
| Absent
| Undecodable
| Text (content : str).

Inductive exn := FileNotFoundError | UnicodeDecodeError.

(** What the run does to its environment, in order. *)
Inductive event :=
| Read
| Write (content : str)
| Print (processed produced : Z)
| PrintExpansion (additional : Z).

Record world := { target : file; log : list event }.

(** A computation that may raise. *)
Definition IO (A : Type) : Type := world -> (exn + A) * world.

Definition ret {A} (a : A) : IO A := fun w => (inr a, w).

Definition bind {A B} (m : IO A) (k : A -> IO B) : IO B :=
  fun w => match m w with
           | (inl e, w') => (inl e, w')
           | (inr a, w') => k a w'
           end.

Notation "x <- m ;; k" := (bind m (fun x => k))
  (at level 61, m at next level, right associativity).
Notation "m ;; k" := (bind m (fun _ => k))
  (at level 61, right associativity).

(** Text mode with [newline=None]: a carriage return, alone or followed by
    a newline, is read as one newline. *)
Fixpoint universal_newlines (s : str) : str :=
  match s with
  | [] => []
  | c :: s' =>
      if (c =? 13)%N then
        match s' with
        | d :: s'' => if (d =? 10)%N then 10%N :: universal_newlines s''
                      else 10%N :: universal_newlines s'
        | [] => [10%N]
        end
      else c :: universal_newlines s'
  end.

(** The lines of a text, each with its newline; [cur] is the line being
    read, reversed. *)
Fixpoint lines_of (cur s : str) : list str :=
  match s with
  | [] => match cur with [] => [] | _ :: _ => [rev cur] end
  | c :: s' =>
      if (c =? 10)%N then rev (c :: cur) :: lines_of [] s'
      else lines_of (c :: cur) s'
  end.

(** [open(path, 'r', encoding='utf-8')] followed by [f.readlines()]. *)
Definition readlines : IO (list str) :=
  fun w =>
    match target w with
    | Absent => (inl FileNotFoundError, w)
    | Undecodable => (inl UnicodeDecodeError, w)
    | Text content =>
        (inr (lines_of [] (universal_newlines content)),
         {| target := target w; log := log w ++ [Read] |})
    end.

(** [open(path, 'w', encoding='utf-8')] followed by [f.writelines(ls)]. *)
Definition writelines (ls : list str) : IO unit :=
  fun w => (inr tt, {| target := Text (concat ls);
                       log := log w ++ [Write (concat ls)] |}).

Definition print (e : event) : IO unit :=
  fun w => (inr tt, {| target := target w; log := log w ++ [e] |}).

Definition main : IO unit :=
  lines <- readlines ;;
  let result := rewrite_document lines in
  writelines result ;;
  print (Print (Py.len lines) (Py.len result)) ;;
  print (PrintExpansion (Py.len result - Py.len lines)).

(** * Notions the properties are stated with *)

(** [p] occurs in [s]. *)
Definition occurs (p s : str) : Prop := exists a b, s = a ++ p ++ b.

(** ** What the expander is specified to emit *)

(** [sep.join(parts)] *)
Fixpoint join (sep : str) (parts : list str) : str :=
  match parts with
  | [] => []
  | [part] => part
  | part :: rest => part ++ sep ++ join sep rest
  end.

(** The output line of a non-empty fragment: escaped quotes become quotes
    and a newline is appended. *)
Definition unescaped_line (fragment : str) : str :=
  Py.replace esc_quote quote fragment ++ NL.

(** The lines emitted for one fragment; [final] says that it is the last
    fragment of the split. *)
Definition emitted_fragment (final : bool) (fragment : str) : list str :=
  match fragment with
  | _ :: _ => [unescaped_line fragment]
  | [] => if final then [] else [NL]
  end.

(** The lines emitted for the fragments, in order. *)
Fixpoint emitted_fragments (fragments : list str) : list str :=
  match fragments with
  | [] => []
  | fragment :: rest =>
      emitted_fragment (match rest with [] => true | _ :: _ => false end) fragment
      ++ emitted_fragments rest
  end.

(** [s.endswith(p)] *)
Definition endswith (p s : str) : bool := Py.startswith (rev p) (rev s).

(** ** The rules of the loop body, as the conditions of its branches *)

(** The line is a Python fence: the first branch. *)
Definition opens (line : str) : bool :=
  Py.eqb (Py.strip line) fence_python
  || Py.startswith (fence_python ++ NL) (Py.strip line).

(** The line closes the block that is open: the second branch. *)
Definition closes (inside : bool) (line : str) : bool :=
  Py.startswith fence (Py.strip line) && inside.

(** The fence is glued to code: the condition of the third branch. *)
Definition glued (line : str) : bool :=
  Py.contains fence_python line && (20 <? Py.len line)%Z
  && negb (Py.eqb (Py.strip line) fence_python).

(** A collapsed code line: the condition of the fourth branch. *)
Definition collapsed (inside : bool) (line : str) : bool :=
  inside && Py.contains esc line && (150 <? Py.len line)%Z.

(** What one iteration appends to [result], and the flag it leaves. *)
Definition emitted (inside : bool) (line : str) : list str :=
  result (process_line {| result := []; in_python_block := inside |} line).

Definition next_state (inside : bool) (line : str) : bool :=
  in_python_block (process_line {| result := []; in_python_block := inside |} line).

(** The iterations of the loop: the flag before the line, the line, and
    what the iteration appends. *)
Fixpoint steps (inside : bool) (lines : list str) : list (bool * str * list str) :=
  match lines with
  | [] => []
  | line :: rest =>
      (inside, line, emitted inside line) :: steps (next_state inside line) rest
  end.

(** The flag after the lines. *)
Definition state_after (inside : bool) (lines : list str) : bool :=
  fold_left next_state lines inside.

(** The output of the lines, started with the flag [inside]. *)
Definition output_from (inside : bool) (lines : list str) : list str :=
  concat (map snd (steps inside lines)).

(** A line is tame when three backticks on it come with neither the
    newline escape nor a fence glued to code. *)
Definition tame (line : str) : Prop :=
  Py.contains fence line = true ->
  Py.contains esc line = false /\ glued line = false.

(** A line the loop has nothing to do with, whatever the flag: no
    backticks and no newline escape. *)
Definition inert (line : str) : Prop :=
  Py.contains fence line = false /\ Py.contains esc line = false.

(** ** Lines as a text file has them *)

(** The line ends with a newline. *)
Definition terminated (line : str) : Prop := exists body, line = body ++ NL.

(** A line as [readlines] returns it: not empty, and with no newline before
    its last character. *)
Definition file_line (line : str) : Prop :=
  line <> []
  /\ exists body, ~ In 10%N body /\ (line = body ++ NL \/ line = body).

(** The lines of a text file: every line is a [file_line], and only the
    last one may lack its newline. *)
Definition file_lines (lines : list str) : Prop :=
  Forall file_line lines /\ Forall terminated (removelast lines).

(** A line that neither the third nor the fourth branch can take: the fence
    is not glued to code on it, and it has the escape only if it is no
    longer than 150 characters. *)
Definition quiet (line : str) : Prop :=
  glued line = false
  /\ (Py.contains esc line = false \/ (Py.len line <= 150)%Z).

(** A line that a second pass appends as it is, without closing a block,
    whatever the flag: a fence-open line, or a [quiet] line that, stripped,
    does not start with three backticks. *)
Definition settled (out : str) : Prop :=
  opens out = true
  \/ (Py.startswith fence (Py.strip out) = false /\ quiet out).

(** The lines emitted in place of a line that an iteration changed are
    settled; for a line changed while no block is open, the first of them
    (the text before the marker) only has to be free of a glued fence. *)
Definition settles_step (inside : bool) (outs : list str) : Prop :=
  match outs with
  | [] => True
  | first :: others =>
      (settled first \/ (inside = false /\ glued first = false))
      /\ Forall settled others
  end.

(** The first pass settles the document: every iteration either appends its
    line as it is or emits lines that are settled. *)
Definition settles (lines : list str) : Prop :=
  Forall (fun step : bool * str * list str =>
            snd step = [snd (fst step)]
            \/ settles_step (fst (fst step)) (snd step))
         (steps false lines).

(** The fence is glued to code once: the text before the leftmost marker
    has neither backticks nor the escape, and the text after it has no
    three backticks. *)
Definition glued_once (line : str) : Prop :=
  exists i, Py.index_of fence_python line = Some i
            /\ inert (firstn i line)
            /\ Py.contains fence (skipn (i + 9) line) = false.

(** The text has no carriage return. *)
Definition no_cr (s : str) : Prop := ~ In 13%N s.

(** ** Lines and documents used as examples *)

(** A collapsed line with two escaped quotes around [hi], a blank line and
    a final escape. *)
Definition quoted_line : str :=
  py "say \" ++ quote ++ py "hi\" ++ quote ++ py "\n\nend\n".

(** A collapsed line whose code has a string with a doubled backslash before
    the n: [msg = 'a\\nb'\nprint(msg)]. *)
Definition doubled_line : str := py "msg = 'a\\nb'\nprint(msg)".

(** The fence glued to two lines of collapsed code. *)
Definition glued_example : str := py "```pythondef foo():\n    return 1\n".

(** A closing fence glued to more than 150 characters of collapsed text. *)
Definition closing_collapsed : str := py "```\n" ++ repeat 120%N 150.

(** A collapsed code line of more than 150 characters. *)
Definition collapsed_example : str :=
  py "import spacy\n# " ++ repeat 45%N 150 ++ py "\nnlp = spacy.load('en')\n".

(** A block with a collapsed line of more than 150 characters. *)
Definition collapsed_document : list str :=
  [py "Title" ++ NL; py "```python" ++ NL; collapsed_example ++ NL; py "```" ++ NL].

(** A line of prose with the escape in it. *)
Definition prose_escape : str := py "Some prose with \n in it." ++ NL.

(** A line of prose that names the marker. *)
Definition prose_marker : str := py "Use ```python to open a block." ++ NL.

(** Prose, then a well-formed Python block. *)
Definition prose_document : list str :=
  [prose_escape; py "```python" ++ NL; py "x = 1" ++ NL; py "```" ++ NL].


(** A short collapsed line inside a block. *)
Definition short_collapsed : list str :=
  [py "```python" ++ NL; py "x = 1\ny = 2" ++ NL; py "```" ++ NL].


(** A text with a well-formed Python block. *)
Definition block_text : str :=
  py "Title" ++ NL ++ py "```python" ++ NL ++ py "x = 1" ++ NL ++ py "```" ++ NL.

(** * Facts about the string operations *)

(** The side conditions on a constant pattern: it is not empty, and a given
    character is not in it. *)
Ltac pattern_side := first [discriminate | cbv; intuition discriminate].

Section StringFacts.

Lemma eqb_eq (s t : str) : Py.eqb s t = true <-> s = t.
Proof.
  revert t; induction s as [|a s IH]; intros [|b t]; simpl; split;
    try congruence; try reflexivity.
  - intros H. apply andb_true_iff in H as [H1 H2].
    apply N.eqb_eq in H1. apply IH in H2. congruence.
  - intros H. inversion H; subst. rewrite N.eqb_refl. simpl. now apply IH.
Qed.

Lemma startswith_iff (p s : str) :
  Py.startswith p s = true <-> exists t, s = p ++ t.
Proof.
  revert s; induction p as [|a p IH]; intros s; simpl.
  - split; [intros _; now exists s | reflexivity].
  - destruct s as [|b s].
    + split; [discriminate | intros [t H]; discriminate].
    + rewrite andb_true_iff, N.eqb_eq, IH. split.
      * intros [-> [t ->]]. now exists t.
      * intros [t H]. inversion H; subst. split; [reflexivity | now exists t].
Qed.

Lemma index_of_Some (p s : str) (i : nat) :
  Py.index_of p s = Some i ->
  exists a b, s = a ++ p ++ b /\ length a = i.
Proof.
  revert i; induction s as [|c s IH]; intros i; simpl.
  - destruct (Py.startswith p []) eqn:E; [|discriminate].
    intros [= <-]. apply startswith_iff in E as [t E]. now exists [], t.
  - destruct (Py.startswith p (c :: s)) eqn:E.
    + intros [= <-]. apply startswith_iff in E as [t E]. now exists [], t.
    + destruct (Py.index_of p s) as [j|]; [|discriminate].
      intros [= <-]. destruct (IH j eq_refl) as (a & b & -> & <-).
      now exists (c :: a), b.
Qed.

Lemma index_of_least (p a b : str) :
  exists i, Py.index_of p (a ++ p ++ b) = Some i /\ i <= length a.
Proof.
  induction a as [|c a IH].
  - exists 0. split; [|simpl; lia]. simpl app.
    assert (E : Py.startswith p (p ++ b) = true) by (apply startswith_iff; now exists b).
    destruct (p ++ b); simpl in *; now rewrite E.
  - destruct IH as (i & Hi & Hle). simpl app. simpl.
    destruct (Py.startswith p (c :: a ++ p ++ b)).
    + exists 0. split; [reflexivity | lia].
    + exists (S i). rewrite Hi. split; [reflexivity | simpl; lia].
Qed.

Lemma contains_iff (p s : str) : Py.contains p s = true <-> occurs p s.
Proof.
  unfold Py.contains. split.
  - destruct (Py.index_of p s) as [i|] eqn:E; [|discriminate].
    intros _. destruct (index_of_Some _ _ _ E) as (a & b & H & _). now exists a, b.
  - intros (a & b & ->). destruct (index_of_least p a b) as (i & -> & _). reflexivity.
Qed.

Lemma contains_false_iff (p s : str) : Py.contains p s = false <-> ~ occurs p s.
Proof.
  rewrite <- contains_iff. destruct (Py.contains p s); split; congruence.
Qed.

Lemma index_of_None (p s : str) : Py.index_of p s = None <-> Py.contains p s = false.
Proof. unfold Py.contains. destruct (Py.index_of p s); split; congruence. Qed.

(** The pieces around the leftmost occurrence. *)
Lemma index_of_cut (p s : str) (i : nat) :
  Py.index_of p s = Some i ->
  s = firstn i s ++ p ++ skipn (i + length p) s /\ length (firstn i s) = i.
Proof.
  intros H. destruct (index_of_Some _ _ _ H) as (a & b & -> & <-).
  rewrite firstn_app, Nat.sub_diag, firstn_all. simpl. rewrite app_nil_r.
  split; [|reflexivity].
  rewrite skipn_app, skipn_all2 by lia. simpl.
  replace (length a + length p - length a) with (length p) by lia.
  rewrite skipn_app, skipn_all, Nat.sub_diag. reflexivity.
Qed.

Lemma split_none (sep s : str) :
  Py.contains sep s = false -> Py.split sep s = [s].
Proof.
  intros H. apply index_of_None in H. destruct sep as [|c sep']; simp split.
  - reflexivity.
  - destruct (Py.inspect (Py.index_of (c :: sep') s)) as [[i|] e]; simp split.
    + congruence.
    + reflexivity.
Qed.

Lemma split_some (c : char) (sep' s : str) (i : nat) :
  Py.index_of (c :: sep') s = Some i ->
  Py.split (c :: sep') s
  = firstn i s :: Py.split (c :: sep') (skipn (i + length (c :: sep')) s).
Proof.
  intros H. simp split.
  destruct (Py.inspect (Py.index_of (c :: sep') s)) as [[j|] e]; simp split.
  - rewrite H in e. injection e as <-. reflexivity.
  - rewrite H in e. discriminate.
Qed.

Lemma replace_none (old new s : str) :
  Py.contains old s = false -> Py.replace old new s = s.
Proof.
  intros H. apply index_of_None in H. destruct old as [|c old']; simp replace.
  - reflexivity.
  - destruct (Py.inspect (Py.index_of (c :: old') s)) as [[i|] e]; simp replace.
    + congruence.
    + reflexivity.
Qed.

Lemma replace_some (c : char) (old' new s : str) (i : nat) :
  Py.index_of (c :: old') s = Some i ->
  Py.replace (c :: old') new s
  = firstn i s ++ new ++ Py.replace (c :: old') new (skipn (i + length (c :: old')) s).
Proof.
  intros H. simp replace.
  destruct (Py.inspect (Py.index_of (c :: old') s)) as [[j|] e]; simp replace.
  - rewrite H in e. injection e as <-. reflexivity.
  - rewrite H in e. discriminate.
Qed.

(** Induction along the leftmost occurrences of a non-empty pattern, the
    recursion scheme of [split] and [replace]. *)
Lemma occurrence_ind (p : str) (P : str -> Prop) :
  p <> [] ->
  (forall s, Py.contains p s = false -> P s) ->
  (forall s i, Py.index_of p s = Some i -> P (skipn (i + length p) s) -> P s) ->
  forall s, P s.
Proof.
  intros Hp Hnone Hsome s.
  induction s as [s IH] using (induction_ltof1 _ (@length char)). unfold ltof in IH.
  destruct (Py.index_of p s) as [i|] eqn:E.
  - apply (Hsome s i E). apply IH.
    destruct (index_of_cut _ _ _ E) as [Hs _].
    rewrite length_skipn.
    assert (0 < length p) by (destruct p; [congruence | simpl; lia]).
    assert (0 < length s).
    { rewrite Hs, !length_app. lia. }
    lia.
  - apply Hnone. now apply index_of_None.
Qed.

Lemma occurs_app_l (p s t : str) : occurs p s -> occurs p (s ++ t).
Proof. intros (a & b & ->). exists a, (b ++ t). now rewrite <- !app_assoc. Qed.

Lemma occurs_app_r (p s t : str) : occurs p t -> occurs p (s ++ t).
Proof. intros (a & b & ->). exists (s ++ a), b. now rewrite <- !app_assoc. Qed.

Lemma occurs_trans (p q s : str) : occurs p q -> occurs q s -> occurs p s.
Proof.
  intros (a & b & ->) (c & d & ->). exists (c ++ a), (b ++ d).
  now rewrite <- !app_assoc.
Qed.

(** No occurrence of the pattern lies before the leftmost one. *)
Lemma before_leftmost (p s : str) (i : nat) :
  p <> [] -> Py.index_of p s = Some i -> Py.contains p (firstn i s) = false.
Proof.
  intros Hp E. apply contains_false_iff. intros (a & b & Hab).
  destruct (index_of_cut _ _ _ E) as [Hs Hlen].
  rewrite Hab in Hs. rewrite <- !app_assoc in Hs.
  destruct (index_of_least p a (b ++ p ++ skipn (i + length p) s)) as (j & Hj & Hle).
  rewrite <- Hs, E in Hj. injection Hj as <-.
  rewrite Hab, !length_app in Hlen.
  assert (0 < length p) by (destruct p; [congruence | simpl; lia]).
  lia.
Qed.

(** No piece of a split contains the separator. *)
Lemma split_parts_free (sep s : str) :
  sep <> [] -> Forall (fun part => Py.contains sep part = false) (Py.split sep s).
Proof.
  intros Hsep. pattern s. apply (occurrence_ind sep); [assumption | |]; clear s.
  - intros s H. rewrite split_none by assumption. now constructor.
  - intros s i E IH. destruct sep as [|c sep']; [congruence|].
    rewrite (split_some _ _ _ _ E). constructor; [|assumption].
    now apply before_leftmost.
Qed.

(** Every piece of a split is a piece of the string. *)
Lemma split_parts_occur (sep s : str) :
  sep <> [] -> Forall (fun part => occurs part s) (Py.split sep s).
Proof.
  intros Hsep. pattern s. apply (occurrence_ind sep); [assumption | |]; clear s.
  - intros s H. rewrite split_none by assumption. constructor; [|constructor].
    exists [], []. now rewrite app_nil_r.
  - intros s i E IH. destruct sep as [|c sep']; [congruence|].
    rewrite (split_some _ _ _ _ E).
    destruct (index_of_cut _ _ _ E) as [Hs _].
    constructor.
    + exists [], (skipn i s). simpl. now rewrite firstn_skipn.
    + eapply Forall_impl; [|exact IH]. intros part Hpart. simpl in Hpart.
      rewrite Hs. apply occurs_app_r, occurs_app_r. exact Hpart.
Qed.

(** A split at an occurrence has at least two pieces. *)
Lemma split_length (sep s : str) :
  sep <> [] -> Py.contains sep s = true -> 2 <= length (Py.split sep s).
Proof.
  intros Hsep H. destruct sep as [|c sep']; [congruence|].
  unfold Py.contains in H. destruct (Py.index_of (c :: sep') s) as [i|] eqn:E; [|discriminate].
  rewrite (split_some _ _ _ _ E). simpl.
  destruct (Py.index_of (c :: sep') (skipn (i + S (length sep')) s)) as [j|] eqn:E'.
  - rewrite (split_some _ _ _ _ E'). simpl. lia.
  - rewrite split_none by now apply index_of_None. simpl. lia.
Qed.

End StringFacts.

(** * The line expander *)

Section Expander.

Lemma esc_nonempty : esc <> [].
Proof. discriminate. Qed.

Lemma esc_quote_nonempty : esc_quote <> [].
Proof. discriminate. Qed.

Lemma split_nonempty (sep s : str) : Py.split sep s <> [].
Proof.
  destruct sep as [|c sep']; [simp split; discriminate|].
  destruct (Py.index_of (c :: sep') s) as [i|] eqn:E.
  - rewrite (split_some _ _ _ _ E). discriminate.
  - rewrite split_none by now apply index_of_None. discriminate.
Qed.

Lemma join_cons (sep part : str) (rest : list str) :
  rest <> [] -> join sep (part :: rest) = part ++ sep ++ join sep rest.
Proof. destruct rest; [congruence | reflexivity]. Qed.

Lemma join_split (sep s : str) : sep <> [] -> join sep (Py.split sep s) = s.
Proof.
  intros Hsep. pattern s. apply (occurrence_ind sep); [assumption | |]; clear s.
  - intros s H. now rewrite split_none.
  - intros s i E IH. destruct sep as [|c sep']; [congruence|].
    rewrite (split_some _ _ _ _ E).
    destruct (index_of_cut _ _ _ E) as [Hs _].
    rewrite join_cons by apply split_nonempty.
    rewrite IH. symmetry. exact Hs.
Qed.

(** The doubled-backslash pattern contains the separator, so a fragment of
    the split never has it: that replacement changes nothing. *)
Lemma esc_esc_absent (part : str) :
  Py.contains esc part = false -> Py.replace esc_esc NL part = part.
Proof.
  intros H. apply replace_none. apply contains_false_iff.
  apply contains_false_iff in H. intros Hocc. apply H.
  apply occurs_trans with (q := esc_esc); [|assumption].
  exists [92%N], []. reflexivity.
Qed.

Lemma expand_part_free (n i : Z) (result : list str) (part : str) :
  Py.contains esc part = false ->
  expand_part n result (i, part)
  = result ++ emitted_fragment (negb (i <? n - 1)%Z) part.
Proof.
  intros H. unfold expand_part, emitted_fragment, unescaped_line.
  destruct part as [|c part]; simpl Py.truthy; cbv iota.
  - destruct (i <? n - 1)%Z; simpl; [reflexivity | now rewrite app_nil_r].
  - now rewrite esc_esc_absent.
Qed.

(** The loop over [enumerate(parts)], started at index [len(pre)] on the
    fragments that follow [pre]. *)
Lemma expand_loop (parts pre : list str) (acc : list str) :
  Forall (fun part => Py.contains esc part = false) parts ->
  fold_left (expand_part (Py.len (pre ++ parts)))
            (Py.enumerate_from (Py.len pre) parts) acc
  = acc ++ emitted_fragments parts.
Proof.
  revert pre acc. induction parts as [|part rest IH]; intros pre acc Hfree.
  - simpl. now rewrite app_nil_r.
  - inversion Hfree as [|? ? Hpart Hrest]; subst.
    cbn [Py.enumerate_from fold_left emitted_fragments].
    rewrite expand_part_free by assumption.
    replace (Py.len pre + 1)%Z with (Py.len (pre ++ [part]))
      by (unfold Py.len; rewrite length_app; simpl; lia).
    replace (pre ++ part :: rest) with ((pre ++ [part]) ++ rest)
      by (now rewrite <- app_assoc).
    rewrite IH by assumption. rewrite <- app_assoc. do 2 f_equal.
    unfold Py.len. rewrite !length_app. simpl length.
    destruct rest as [|part' rest]; simpl length.
    + replace (Z.of_nat (length pre) <? Z.of_nat (length pre + 1 + 0) - 1)%Z with false
        by (symmetry; apply Z.ltb_ge; lia).
      reflexivity.
    + replace (Z.of_nat (length pre) <? Z.of_nat (length pre + 1 + S (length rest)) - 1)%Z
        with true by (symmetry; apply Z.ltb_lt; lia).
      reflexivity.
Qed.

(** The expander on a line that has the escape. *)
Lemma expand_escaped (line : str) :
  Py.contains esc line = true ->
  fix_code_block_line line = emitted_fragments (Py.split esc line).
Proof.
  intros H. unfold fix_code_block_line. rewrite H. simpl negb. cbv iota zeta.
  apply (expand_loop (Py.split esc line) [] []).
  apply split_parts_free, esc_nonempty.
Qed.

Lemma expand_plain (line : str) :
  Py.contains esc line = false -> fix_code_block_line line = [line].
Proof. intros H. unfold fix_code_block_line. now rewrite H. Qed.

Lemma emitted_fragments_nonempty (fragments : list str) :
  2 <= length fragments -> emitted_fragments fragments <> [].
Proof.
  destruct fragments as [|f [|g rest]]; simpl length; try lia. intros _.
  cbn [emitted_fragments]. destruct f; simpl; discriminate.
Qed.

Lemma expand_nonempty (line : str) : fix_code_block_line line <> [].
Proof.
  destruct (Py.contains esc line) eqn:E.
  - rewrite expand_escaped by assumption.
    apply emitted_fragments_nonempty, split_length; [apply esc_nonempty | assumption].
  - rewrite expand_plain by assumption. discriminate.
Qed.

End Expander.

(** * Characters that are not in a pattern *)

Section ForeignChar.

Variables (p : str) (c : char).
Hypothesis p_nonempty : p <> [].
Hypothesis c_foreign : ~ In c p.

Lemma startswith_snoc (t : str) :
  Py.startswith p (t ++ [c]) = Py.startswith p t.
Proof.
  clear p_nonempty. revert t c_foreign.
  induction p as [|a q IH]; intros t Hc; [reflexivity|].
  destruct t as [|b t]; simpl.
  - destruct (N.eqb_spec a c) as [->|_]; [|reflexivity].
    exfalso. apply Hc. now left.
  - rewrite IH; [reflexivity|]. intros Hin. apply Hc. now right.
Qed.

Lemma startswith_empty : Py.startswith p [] = false.
Proof. destruct p; [congruence | reflexivity]. Qed.

Lemma index_of_snoc (s : str) : Py.index_of p (s ++ [c]) = Py.index_of p s.
Proof.
  induction s as [|b s IH].
  - pose proof (startswith_snoc []) as H. simpl app in *.
    cbn [Py.index_of]. now rewrite H, startswith_empty.
  - change ((b :: s) ++ [c]) with (b :: (s ++ [c])).
    cbn [Py.index_of]. rewrite IH.
    change (b :: s ++ [c]) with ((b :: s) ++ [c]). now rewrite startswith_snoc.
Qed.

Lemma contains_snoc (s : str) : Py.contains p (s ++ [c]) = Py.contains p s.
Proof. unfold Py.contains. now rewrite index_of_snoc. Qed.

(** The leftmost occurrence ends inside the string. *)
Lemma index_of_bound (s : str) (i : nat) :
  Py.index_of p s = Some i -> i + length p <= length s.
Proof.
  intros E. destruct (index_of_Some _ _ _ E) as (a & b & -> & <-).
  rewrite !length_app. lia.
Qed.

Lemma replace_snoc (new s : str) :
  Py.replace p new (s ++ [c]) = Py.replace p new s ++ [c].
Proof.
  pattern s. apply (occurrence_ind p); [assumption | |]; clear s.
  - intros s H. rewrite !replace_none; [reflexivity | assumption |].
    now rewrite contains_snoc.
  - intros s i E IH. pose proof (index_of_bound _ _ E) as Hb.
    assert (E' : Py.index_of p (s ++ [c]) = Some i) by now rewrite index_of_snoc.
    destruct p as [|a q] eqn:Ep; [congruence|].
    rewrite (replace_some _ _ _ _ _ E), (replace_some _ _ _ _ _ E').
    rewrite firstn_app, skipn_app.
    replace (i - length s) with 0 by lia.
    replace (i + length (a :: q) - length s) with 0 by lia.
    simpl firstn. simpl (skipn 0 _). rewrite app_nil_r, IH.
    now rewrite <- !app_assoc.
Qed.

Lemma last_cons {A} (x : A) (l : list A) (d : A) :
  l <> [] -> last (x :: l) d = last l d.
Proof. destruct l; [congruence | reflexivity]. Qed.

Lemma split_last_snoc (s : str) :
  last (Py.split p (s ++ [c])) [] = last (Py.split p s) [] ++ [c].
Proof.
  pattern s. apply (occurrence_ind p); [assumption | |]; clear s.
  - intros s H. rewrite !split_none; [reflexivity | assumption |].
    now rewrite contains_snoc.
  - intros s i E IH. pose proof (index_of_bound _ _ E) as Hb.
    assert (E' : Py.index_of p (s ++ [c]) = Some i) by now rewrite index_of_snoc.
    destruct p as [|a q] eqn:Ep; [congruence|].
    rewrite (split_some _ _ _ _ E), (split_some _ _ _ _ E').
    rewrite !last_cons by apply split_nonempty.
    rewrite skipn_app.
    replace (i + length (a :: q) - length s) with 0 by lia.
    simpl (skipn 0 _). exact IH.
Qed.

(** An occurrence of the pattern around a foreign character lies on one
    side of it. *)
Lemma occurs_around (A B : str) :
  occurs p (A ++ c :: B) -> occurs p A \/ occurs p B.
Proof.
  intros (a & b & H).
  apply app_eq_app in H as [l [[HA Hp] | [Ha HB]]].
  - apply app_eq_app in Hp as [m [[Hp Hb] | [Hl Hb]]].
    + destruct m as [|d m].
      * left. exists a, []. rewrite app_nil_r in Hp. subst. now rewrite app_nil_r.
      * exfalso. apply c_foreign. simpl in Hb. injection Hb as <- _.
        rewrite Hp. apply in_or_app. right. now left.
    + left. exists a, m. now subst.
  - destruct l as [|d l].
    + simpl in HB. destruct p as [|d q]; [congruence|].
      exfalso. apply c_foreign. simpl in HB. injection HB as <- _. now left.
    + simpl in HB. injection HB as _ HB. right. now exists l, b.
Qed.

Lemma occurs_snoc (s : str) : occurs p (s ++ [c]) -> occurs p s.
Proof.
  intros H. apply occurs_around in H as [H|H]; [assumption|].
  destruct H as (a & b & H). symmetry in H.
  apply app_eq_nil in H as [_ H]. apply app_eq_nil in H as [H _]. congruence.
Qed.

(** Replacing by the foreign character creates no occurrence. *)
Lemma occurs_replace (old s : str) :
  occurs p (Py.replace old [c] s) -> occurs p s.
Proof.
  destruct old as [|a old']; [now simp replace|].
  pattern s. apply (occurrence_ind (a :: old')); [discriminate | |]; clear s.
  - intros s H. now rewrite replace_none.
  - intros s i E IH. rewrite (replace_some _ _ _ _ _ E).
    destruct (index_of_cut _ _ _ E) as [Hs _].
    intros H. simpl app in H. apply occurs_around in H as [H|H].
    + rewrite Hs. now apply occurs_app_l.
    + rewrite Hs. apply occurs_app_r, occurs_app_r. now apply IH.
Qed.

End ForeignChar.

(** * The scan loop *)

Section Scan.

Lemma process_line_frame (st : scan_state) (line : str) :
  process_line st line
  = {| result := result st ++ emitted (in_python_block st) line;
       in_python_block := next_state (in_python_block st) line |}.
Proof.
  unfold emitted, next_state, process_line.
  destruct st as [r b]. cbn [result in_python_block].
  repeat match goal with
         | |- context [if ?c then _ else _] => destruct c
         end; cbn [result in_python_block app]; rewrite <- ?app_assoc; reflexivity.
Qed.

Lemma scan_from_steps (lines : list str) (st : scan_state) :
  scan_from st lines
  = {| result := result st ++ output_from (in_python_block st) lines;
       in_python_block := state_after (in_python_block st) lines |}.
Proof.
  unfold scan_from, output_from, state_after. revert st.
  induction lines as [|line rest IH]; intros st.
  - simpl. rewrite app_nil_r. now destruct st.
  - cbn [fold_left steps map concat snd]. rewrite IH, process_line_frame.
    cbn [result in_python_block]. now rewrite <- app_assoc.
Qed.

Lemma rewrite_steps (lines : list str) :
  rewrite_document lines = concat (map snd (steps false lines)).
Proof. unfold rewrite_document, scan. now rewrite scan_from_steps. Qed.

(** The branches, one by one. *)
Lemma step_opens (inside : bool) (line : str) :
  opens line = true ->
  emitted inside line = [line] /\ next_state inside line = true.
Proof.
  unfold opens, emitted, next_state, process_line. now intros ->.
Qed.

Lemma step_closes (inside : bool) (line : str) :
  opens line = false -> closes inside line = true ->
  emitted inside line = [line] /\ next_state inside line = false.
Proof.
  unfold opens, closes, emitted, next_state, process_line.
  cbn [in_python_block]. now intros -> ->.
Qed.

Lemma step_collapsed (inside : bool) (line : str) :
  opens line = false -> closes inside line = false -> glued line = false ->
  collapsed inside line = true ->
  emitted inside line = fix_code_block_line line /\ next_state inside line = inside.
Proof.
  unfold opens, closes, glued, collapsed, emitted, next_state, process_line.
  cbn [in_python_block]. now intros -> -> -> ->.
Qed.

Lemma step_other (inside : bool) (line : str) :
  opens line = false -> closes inside line = false -> glued line = false ->
  collapsed inside line = false ->
  emitted inside line = [line] /\ next_state inside line = inside.
Proof.
  unfold opens, closes, glued, collapsed, emitted, next_state, process_line.
  cbn [in_python_block]. now intros -> -> -> ->.
Qed.

Lemma clip_of_nat (s : str) (i : nat) : Py.clip s (Z.of_nat i) = i.
Proof.
  unfold Py.clip. replace (Z.of_nat i <? 0)%Z with false
    by (symmetry; apply Z.ltb_ge; lia).
  apply Nat2Z.id.
Qed.

Lemma step_glued (inside : bool) (line : str) (i : nat) :
  opens line = false -> closes inside line = false -> glued line = true ->
  Py.index_of fence_python line = Some i ->
  emitted inside line
  = (if 0 <? i then [Py.rstrip (firstn i line) ++ NL] else [])
      ++ [fence_python ++ NL]
      ++ fix_code_block_line (skipn (i + 9) line)
  /\ next_state inside line = true.
Proof.
  unfold opens, closes, glued, emitted, next_state, process_line.
  cbn [in_python_block result]. intros -> -> -> E.
  unfold Py.find, Py.slice_to, Py.slice_from. rewrite E.
  replace (Z.of_nat i + 9)%Z with (Z.of_nat (i + 9)) by lia.
  rewrite !clip_of_nat.
  replace (0 <? Z.of_nat i)%Z with (0 <? i).
  - destruct (0 <? i); cbn [result in_python_block app]; split; reflexivity.
  - destruct (Nat.ltb_spec 0 i); symmetry; [apply Z.ltb_lt | apply Z.ltb_ge]; lia.
Qed.

End Scan.

(** * Lines without a fence, and the second pass *)

Section SecondPass.

Lemma lstrip_suffix (s : str) : exists a, s = a ++ Py.lstrip s.
Proof.
  induction s as [|c s [a IH]]; [now exists []|].
  simpl. destruct (Py.isspace c).
  - exists (c :: a). simpl. now f_equal.
  - now exists [].
Qed.

Lemma rstrip_prefix (s : str) : exists b, s = Py.rstrip s ++ b.
Proof.
  unfold Py.rstrip. destruct (lstrip_suffix (rev s)) as [a H].
  exists (rev a). rewrite <- rev_app_distr, <- H. now rewrite rev_involutive.
Qed.

Lemma strip_occurs (s : str) : occurs (Py.strip s) s.
Proof.
  unfold Py.strip. destruct (lstrip_suffix s) as [a Ha].
  destruct (rstrip_prefix (Py.lstrip s)) as [b Hb].
  exists a, b. now rewrite <- Hb.
Qed.

Lemma startswith_occurs (p s : str) : Py.startswith p s = true -> occurs p s.
Proof. intros H. apply startswith_iff in H as [t ->]. now exists [], t. Qed.

Lemma fence_in_fence_python : occurs fence fence_python.
Proof. exists [], (py "python"). reflexivity. Qed.

Lemma glued_has_fence (line : str) :
  glued line = true -> Py.contains fence line = true.
Proof.
  unfold glued. intros H.
  apply andb_true_iff in H as [H _]. apply andb_true_iff in H as [H _].
  apply contains_iff. apply contains_iff in H.
  exact (occurs_trans _ _ _ fence_in_fence_python H).
Qed.

Lemma opens_has_fence (line : str) :
  opens line = true -> Py.contains fence line = true.
Proof.
  unfold opens. intros H. apply contains_iff.
  apply occurs_trans with (q := Py.strip line); [|apply strip_occurs].
  apply orb_true_iff in H as [H|H].
  - apply eqb_eq in H. rewrite H. exact fence_in_fence_python.
  - apply startswith_occurs in H.
    apply occurs_trans with (q := fence_python ++ NL); [|assumption].
    apply occurs_app_l, fence_in_fence_python.
Qed.

Lemma closes_has_fence (inside : bool) (line : str) :
  closes inside line = true -> Py.contains fence line = true.
Proof.
  unfold closes. intros H. apply andb_true_iff in H as [H _].
  apply contains_iff.
  apply occurs_trans with (q := Py.strip line); [|apply strip_occurs].
  now apply startswith_occurs.
Qed.

Lemma not_true_false (b : bool) : (b = true -> False) -> b = false.
Proof. destruct b; [intros H; now destruct H | reflexivity]. Qed.

(** Without backticks, only the fourth branch or the last one is taken. *)
Lemma no_fence_rules (inside : bool) (line : str) :
  Py.contains fence line = false ->
  opens line = false /\ closes inside line = false /\ glued line = false.
Proof.
  intros H. repeat split; apply not_true_false; intros H'.
  - apply opens_has_fence in H'. congruence.
  - apply closes_has_fence in H'. congruence.
  - apply glued_has_fence in H'. congruence.
Qed.

Lemma step_inert (inside : bool) (line : str) :
  inert line -> emitted inside line = [line] /\ next_state inside line = inside.
Proof.
  intros [Hf He]. destruct (no_fence_rules inside line Hf) as (H1 & H2 & H3).
  apply step_other; try assumption.
  unfold collapsed. rewrite He. now destruct inside.
Qed.

Lemma output_inert (lines : list str) (inside : bool) :
  Forall inert lines ->
  output_from inside lines = lines /\ state_after inside lines = inside.
Proof.
  unfold output_from, state_after.
  induction 1 as [|line rest Hline Hrest IH]; [now split|].
  destruct (step_inert inside line Hline) as [He Hn].
  cbn [steps map concat snd fold_left]. rewrite He, Hn.
  destruct IH as [IH1 IH2]. now rewrite IH1, IH2.
Qed.

Lemma output_from_app (l1 l2 : list str) (inside : bool) :
  output_from inside (l1 ++ l2)
  = output_from inside l1 ++ output_from (state_after inside l1) l2.
Proof.
  unfold output_from, state_after. revert inside.
  induction l1 as [|line rest IH]; intros inside; [reflexivity|].
  cbn [app steps map concat snd fold_left]. now rewrite IH, app_assoc.
Qed.

Lemma state_after_app (l1 l2 : list str) (inside : bool) :
  state_after inside (l1 ++ l2) = state_after (state_after inside l1) l2.
Proof. apply fold_left_app. Qed.

(** What the expander emits has a pattern only where a fragment has it,
    when the pattern has neither a quote nor a newline. *)
Lemma emitted_fragments_free (p : str) (fragments : list str) :
  p <> [] -> ~ In 34%N p -> ~ In 10%N p ->
  Forall (fun fragment => ~ occurs p fragment) fragments ->
  Forall (fun out => ~ occurs p out) (emitted_fragments fragments).
Proof.
  intros Hp Hq Hn. induction 1 as [|f rest Hf Hrest IH]; [constructor|].
  cbn [emitted_fragments]. apply Forall_app. split; [|assumption].
  assert (HNL : ~ occurs p NL).
  { intros H. apply (occurs_snoc p 10%N Hp Hn []) in H.
    destruct H as (a & b & H). symmetry in H.
    apply app_eq_nil in H as [_ H]. apply app_eq_nil in H as [H _]. congruence. }
  unfold emitted_fragment, unescaped_line.
  destruct f as [|c f]; [destruct rest; repeat constructor; assumption|].
  constructor; [|constructor]. intros H. apply Hf.
  apply (occurs_snoc p 10%N Hp Hn) in H.
  now apply (occurs_replace p 34%N Hp Hq) in H.
Qed.

Lemma expand_free (p line : str) :
  p <> [] -> ~ In 34%N p -> ~ In 10%N p ->
  Py.contains esc line = true -> Py.contains p line = false ->
  Forall (fun out => Py.contains p out = false) (fix_code_block_line line).
Proof.
  intros Hp Hq Hn He Hline. rewrite expand_escaped by assumption.
  eapply Forall_impl; [intros out H; apply contains_false_iff; exact H|].
  apply emitted_fragments_free; try assumption.
  eapply Forall_impl; [|apply (split_parts_occur esc line esc_nonempty)].
  intros part Hpart Hocc. apply contains_false_iff in Hline. apply Hline.
  exact (occurs_trans _ _ _ Hocc Hpart).
Qed.

(** After the expander, no line has the newline escape. *)
Lemma expand_no_escape (line : str) :
  Py.contains esc line = true ->
  Forall (fun out => Py.contains esc out = false) (fix_code_block_line line).
Proof.
  intros He. rewrite expand_escaped by assumption.
  eapply Forall_impl; [intros out H; apply contains_false_iff; exact H|].
  apply emitted_fragments_free; [pattern_side .. |].
  eapply Forall_impl; [|apply (split_parts_free esc line esc_nonempty)].
  intros part H. now apply contains_false_iff.
Qed.

Lemma expand_inert (line : str) :
  Py.contains esc line = true -> Py.contains fence line = false ->
  Forall inert (fix_code_block_line line).
Proof.
  intros He Hf. apply Forall_forall. intros out Hin. split.
  - pose proof (expand_free fence line) as H.
    rewrite Forall_forall in H. apply H; try assumption; pattern_side.
  - pose proof (expand_no_escape line He) as H.
    rewrite Forall_forall in H. now apply H.
Qed.

(** What an iteration emits for a tame line is left alone by a second
    pass, which ends with the same flag. *)
Lemma step_stable (inside : bool) (line : str) :
  tame line ->
  output_from inside (emitted inside line) = emitted inside line
  /\ state_after inside (emitted inside line) = next_state inside line.
Proof.
  intros Ht.
  assert (Hone : forall b, emitted inside line = [line] -> next_state inside line = b ->
                           output_from inside [line] = [line]
                           /\ state_after inside [line] = b).
  { intros b He Hn. unfold output_from, state_after.
    cbn [steps map concat snd fold_left]. rewrite He, Hn. now rewrite app_nil_r. }
  destruct (opens line) eqn:Ho.
  { destruct (step_opens inside line Ho) as [He Hn]. rewrite He, Hn. now apply Hone. }
  destruct (closes inside line) eqn:Hc.
  { destruct (step_closes inside line Ho Hc) as [He Hn]. rewrite He, Hn. now apply Hone. }
  destruct (glued line) eqn:Hg.
  { destruct (Ht (glued_has_fence line Hg)) as [_ H]. congruence. }
  destruct (collapsed inside line) eqn:Hx.
  - destruct (step_collapsed inside line Ho Hc Hg Hx) as [He Hn]. rewrite He, Hn.
    unfold collapsed in Hx. apply andb_true_iff in Hx as [Hx _].
    apply andb_true_iff in Hx as [_ Hesc].
    apply output_inert, expand_inert; [assumption|].
    apply not_true_false. intros Hf. destruct (Ht Hf) as [H _]. congruence.
  - destruct (step_other inside line Ho Hc Hg Hx) as [He Hn]. rewrite He, Hn.
    now apply Hone.
Qed.

Lemma second_pass (lines : list str) :
  Forall tame lines ->
  forall inside,
    output_from inside (output_from inside lines) = output_from inside lines
    /\ state_after inside (output_from inside lines) = state_after inside lines.
Proof.
  induction 1 as [|line rest Hline Hrest IH]; intros inside; [now split|].
  change (output_from inside (line :: rest))
    with (emitted inside line ++ output_from (next_state inside line) rest).
  change (state_after inside (line :: rest))
    with (state_after (next_state inside line) rest).
  destruct (step_stable inside line Hline) as [H1 H2].
  destruct (IH (next_state inside line)) as [IH1 IH2].
  rewrite output_from_app, state_after_app, H1, H2. now rewrite IH1, IH2.
Qed.

End SecondPass.

(** * More on the loop and on last elements *)

Section Counting.

Lemma emitted_nonempty (inside : bool) (line : str) :
  1 <= length (emitted inside line).
Proof.
  destruct (opens line) eqn:Ho.
  { destruct (step_opens inside line Ho) as [-> _]. simpl. lia. }
  destruct (closes inside line) eqn:Hc.
  { destruct (step_closes inside line Ho Hc) as [-> _]. simpl. lia. }
  destruct (glued line) eqn:Hg.
  - assert (Hi : exists i, Py.index_of fence_python line = Some i).
    { unfold glued in Hg. apply andb_true_iff in Hg as [Hg _].
      apply andb_true_iff in Hg as [Hg _]. unfold Py.contains in Hg.
      destruct (Py.index_of fence_python line) as [i|]; [now exists i | discriminate]. }
    destruct Hi as [i Hi].
    destruct (step_glued inside line i Ho Hc Hg Hi) as [-> _].
    rewrite !length_app. simpl. lia.
  - destruct (collapsed inside line) eqn:Hx.
    + destruct (step_collapsed inside line Ho Hc Hg Hx) as [-> _].
      pose proof (expand_nonempty line).
      destruct (fix_code_block_line line); [congruence | simpl; lia].
    + destruct (step_other inside line Ho Hc Hg Hx) as [-> _]. simpl. lia.
Qed.

Lemma output_from_length (lines : list str) (inside : bool) :
  length lines <= length (output_from inside lines).
Proof.
  revert inside. induction lines as [|line rest IH]; intros inside; [simpl; lia|].
  change (output_from inside (line :: rest))
    with (emitted inside line ++ output_from (next_state inside line) rest).
  rewrite length_app. pose proof (emitted_nonempty inside line).
  specialize (IH (next_state inside line)). simpl. lia.
Qed.

Lemma rewrite_output (lines : list str) : rewrite_document lines = output_from false lines.
Proof. apply rewrite_steps. Qed.

Lemma steps_emitted (lines : list str) (inside b : bool) (line : str) (out : list str) :
  In (b, line, out) (steps inside lines) -> out = emitted b line.
Proof.
  revert inside. induction lines as [|l rest IH]; intros inside; simpl; [tauto|].
  intros [H|H]; [congruence | now apply (IH _ H)].
Qed.

Lemma last_app_nonempty {A} (l1 l2 : list A) (d : A) :
  l2 <> [] -> last (l1 ++ l2) d = last l2 d.
Proof.
  intros H. induction l1 as [|x l1 IH]; [reflexivity|].
  change ((x :: l1) ++ l2) with (x :: (l1 ++ l2)).
  destruct (l1 ++ l2) eqn:E; [|exact IH].
  apply app_eq_nil in E as [_ E]. congruence.
Qed.

Lemma unescaped_line_nonempty (fragment : str) : unescaped_line fragment <> [].
Proof.
  unfold unescaped_line. intros H. apply app_eq_nil in H as [_ H]. discriminate.
Qed.

Lemma last_emitted (fragments : list str) :
  last fragments [] <> [] ->
  last (emitted_fragments fragments) [] = unescaped_line (last fragments []).
Proof.
  induction fragments as [|f rest IH]; [simpl; congruence|].
  destruct rest as [|g rest].
  - simpl last. intros Hf. destruct f as [|c f]; [congruence | reflexivity].
  - intros Hlast. rewrite last_cons in * by discriminate.
    specialize (IH Hlast). cbn [emitted_fragments] in *.
    rewrite last_app_nonempty; [exact IH|].
    intros E. rewrite E in IH. simpl in IH. symmetry in IH.
    now apply unescaped_line_nonempty in IH.
Qed.

End Counting.

(** * The expander: what it emits *)

(** C1: on a line that has the backslash-n escape the expander splits the
    line at every occurrence of the escape (the fragments, joined by the
    escape, give the line back, and no fragment has the escape) and emits,
    fragment by fragment and in order: for a non-empty fragment one line, the
    fragment with every escaped quote turned into a quote and a newline
    appended; for an empty fragment that is not the final one a blank line;
    for an empty final fragment nothing. *)
Theorem expander_emits_fragments (line : str) :
  Py.contains esc line = true ->
  join esc (Py.split esc line) = line
  /\ Forall (fun fragment => Py.contains esc fragment = false) (Py.split esc line)
  /\ fix_code_block_line line = emitted_fragments (Py.split esc line).
Proof.
  intros H. split; [|split].
  - apply join_split, esc_nonempty.
  - apply split_parts_free, esc_nonempty.
  - now apply expand_escaped.
Qed.

Lemma expander_emits_fragments_witness :
  fix_code_block_line quoted_line
  = [py "say " ++ quote ++ py "hi" ++ quote ++ NL; NL; py "end" ++ NL].
Proof.
  destruct (expander_emits_fragments quoted_line eq_refl) as (_ & _ & H).
  rewrite H. vm_compute. reflexivity.
Defined.

(** C7: a line without the backslash-n escape, the empty line included, is
    returned as it is, as the only element of the result. *)
Theorem expander_without_escape (line : str) :
  Py.contains esc line = false ->
  fix_code_block_line line = [line] /\ fix_code_block_line [] = [[]].
Proof.
  intros H. split; [now apply expand_plain | reflexivity].
Qed.

Lemma expander_without_escape_witness :
  fix_code_block_line (py "x = 1") = [py "x = 1"].
Proof.
  exact (proj1 (expander_without_escape (py "x = 1") eq_refl)).
Defined.

(** C6: the replacement of backslash-backslash-n by a newline is applied to
    the fragments of a split at backslash-n, none of which has the pattern:
    it never changes a fragment, and a line with the doubled sequence is cut
    inside it, the first backslash left at the end of a line. *)
Theorem doubled_escape_is_split :
  (forall line part, In part (Py.split esc line) -> Py.replace esc_esc NL part = part)
  /\ fix_code_block_line doubled_line
     = [py "msg = 'a\" ++ NL; py "b'" ++ NL; py "print(msg)" ++ NL].
Proof.
  split.
  - intros line part Hin. apply esc_esc_absent.
    pose proof (split_parts_free esc line esc_nonempty) as H.
    rewrite Forall_forall in H. now apply H.
  - vm_compute. reflexivity.
Qed.

(** C9: the expander never returns an empty list (so not on a non-empty
    line either), every iteration of the loop adds at least one line to the
    output, the output has at least as many lines as the input, and the
    expansion that [main] prints is not negative. *)
Theorem output_never_shrinks :
  (forall line, line <> [] -> fix_code_block_line line <> [])
  /\ (forall st line,
        (Py.len (result st) + 1 <= Py.len (result (process_line st line)))%Z)
  /\ (forall lines, (Py.len lines <= Py.len (rewrite_document lines))%Z)
  /\ (forall w d, In (PrintExpansion d) (log (snd (main w))) ->
                  In (PrintExpansion d) (log w) \/ (0 <= d)%Z).
Proof.
  split; [|split; [|split]].
  - intros line _. apply expand_nonempty.
  - intros st line. rewrite process_line_frame. cbn [result]. unfold Py.len.
    rewrite length_app. pose proof (emitted_nonempty (in_python_block st) line). lia.
  - intros lines. unfold Py.len. rewrite rewrite_output.
    pose proof (output_from_length lines false). lia.
  - intros [f l] d. unfold main, bind, readlines, writelines, print.
    cbn [target log]. destruct f as [| |content]; cbn [snd log]; try tauto.
    rewrite <- !app_assoc. cbn [app]. intros Hin.
    apply in_app_or in Hin as [Hin|Hin]; [now left|]. right.
    simpl in Hin. destruct Hin as [H|[H|[H|[H|[]]]]]; try discriminate.
    injection H as <-.
    pose proof (output_from_length (lines_of [] (universal_newlines content)) false) as Hlen.
    unfold Py.len. rewrite rewrite_output. lia.
Qed.

Lemma output_never_shrinks_witness :
  py "x = 1\ny = 2\n" <> [] /\ fix_code_block_line (py "x = 1\ny = 2\n") <> [].
Proof.
  assert (H : py "x = 1\ny = 2\n" <> []) by discriminate.
  split; [exact H | exact (proj1 output_never_shrinks _ H)].
Defined.

(** C10 as stated fails: the final fragment of [a\nb] is [b], not empty, and
    the last line emitted ends with one newline, not two. *)
Lemma single_terminator_counterexample :
  Py.contains esc (py "a\nb") = true
  /\ last (Py.split esc (py "a\nb")) [] = py "b"
  /\ fix_code_block_line (py "a\nb") = [py "a" ++ NL; py "b" ++ NL]
  /\ endswith (NL ++ NL) (last (fix_code_block_line (py "a\nb")) []) = false.
Proof. vm_compute. repeat split; reflexivity. Qed.

(** C10, amended: when the line has the escape and its final fragment is not
    empty, the last line emitted is that fragment, quotes unescaped, with a
    newline appended; when the fragment itself ends with a newline, the last
    line emitted ends with two newlines; and this is the case of every line
    that ends with a newline, as the lines read from the file do. *)
Theorem final_fragment_terminated (line : str) :
  Py.contains esc line = true ->
  last (Py.split esc line) [] <> [] ->
  last (fix_code_block_line line) [] = unescaped_line (last (Py.split esc line) [])
  /\ (forall body, last (Py.split esc line) [] = body ++ NL ->
        last (fix_code_block_line line) []
        = Py.replace esc_quote quote body ++ NL ++ NL)
  /\ (forall body, line = body ++ NL ->
        last (Py.split esc line) [] = last (Py.split esc body) [] ++ NL).
Proof.
  intros He Hlast.
  assert (H : last (fix_code_block_line line) []
              = unescaped_line (last (Py.split esc line) [])).
  { rewrite expand_escaped by assumption. now apply last_emitted. }
  split; [exact H|]. split.
  - intros body Hbody. rewrite H, Hbody. unfold unescaped_line, NL.
    rewrite replace_snoc by pattern_side. now rewrite <- app_assoc.
  - intros body ->. apply split_last_snoc; pattern_side.
Qed.

Lemma final_fragment_terminated_witness :
  last (fix_code_block_line (py "x = 1\ny = 2" ++ NL)) [] = py "y = 2" ++ NL ++ NL.
Proof.
  assert (He : Py.contains esc (py "x = 1\ny = 2" ++ NL) = true) by reflexivity.
  assert (Hl : last (Py.split esc (py "x = 1\ny = 2" ++ NL)) [] <> [])
    by (vm_compute; discriminate).
  destruct (final_fragment_terminated _ He Hl) as (_ & H & _).
  apply (H (py "y = 2")). vm_compute. reflexivity.
Defined.

(** * The rewriter: its rules *)

(** C2 as stated fails: inside a Python block the glued line of the example
    is taken by the second branch, as a closing fence: it is passed through
    unsplit and the block is left. *)
Lemma glued_inside_counterexample :
  Py.contains fence_python glued_example = true
  /\ (20 <? Py.len glued_example)%Z = true
  /\ Py.eqb (Py.strip glued_example) fence_python = false
  /\ process_line {| result := []; in_python_block := true |} glued_example
     = {| result := [glued_example]; in_python_block := false |}.
Proof. vm_compute. repeat split; reflexivity. Qed.

(** C2, amended: a line that has the Python fence marker, is longer than 20
    characters and is not the marker once stripped, and that neither of the
    first two branches takes (stripped, it does not start with the marker
    and a newline, and it does not start with three backticks while a block
    is open), is split at the leftmost marker: the text before it, if any,
    stripped on the right and terminated, then the marker on a line of its
    own, then what the expander makes of the text after it; the flag is set.
    From the initial state the line of the example gives the three lines it
    names. *)
Theorem glued_fence_split (st : scan_state) (line : str) :
  Py.contains fence_python line = true ->
  (20 < Py.len line)%Z ->
  Py.strip line <> fence_python ->
  Py.startswith (fence_python ++ NL) (Py.strip line) = false ->
  Py.startswith fence (Py.strip line) && in_python_block st = false ->
  (exists prefix rest,
      line = prefix ++ fence_python ++ rest
      /\ Py.index_of fence_python line = Some (length prefix)
      /\ process_line st line
         = {| result := result st
                        ++ match prefix with
                           | [] => []
                           | _ :: _ => [Py.rstrip prefix ++ NL]
                           end
                        ++ [fence_python ++ NL]
                        ++ fix_code_block_line rest;
              in_python_block := true |})
  /\ process_line initial glued_example
     = {| result := [fence_python ++ NL; py "def foo():" ++ NL; py "    return 1" ++ NL];
          in_python_block := true |}.
Proof.
  intros Hc Hlen Hstrip Hopen Hclose. split; [|vm_compute; reflexivity].
  assert (Ho : opens line = false).
  { unfold opens. rewrite Hopen, orb_false_r. apply not_true_false.
    intros H. now apply eqb_eq in H. }
  assert (Hg : glued line = true).
  { unfold glued. rewrite Hc. apply Z.ltb_lt in Hlen. rewrite Hlen. simpl.
    apply negb_true_iff, not_true_false. intros H. now apply eqb_eq in H. }
  unfold Py.contains in Hc.
  destruct (Py.index_of fence_python line) as [i|] eqn:E; [|discriminate].
  destruct (index_of_cut _ _ _ E) as [Hs Hi].
  exists (firstn i line), (skipn (i + 9) line). rewrite Hi.
  split; [exact Hs|]. split; [reflexivity|].
  rewrite process_line_frame.
  destruct (step_glued (in_python_block st) line i Ho Hclose Hg E) as [-> ->].
  do 2 f_equal. f_equal.
  destruct (firstn i line) as [|c prefix] eqn:Ef.
  - simpl in Hi. now subst i.
  - simpl in Hi. subst i. reflexivity.
Qed.

Lemma glued_fence_split_witness :
  process_line initial glued_example
  = {| result := [fence_python ++ NL; py "def foo():" ++ NL; py "    return 1" ++ NL];
       in_python_block := true |}.
Proof.
  refine (proj2 (glued_fence_split initial glued_example _ _ _ _ _)).
  - reflexivity.
  - reflexivity.
  - vm_compute. discriminate.
  - reflexivity.
  - reflexivity.
Defined.

(** C3 as stated fails: inside a block, a line of 155 characters that has
    the escape and starts with three backticks is taken by the second
    branch: it is passed through, not expanded, and the block is left. *)
Lemma collapsed_closes_counterexample :
  Py.contains esc closing_collapsed = true
  /\ (150 <? Py.len closing_collapsed)%Z = true
  /\ process_line {| result := []; in_python_block := true |} closing_collapsed
     = {| result := [closing_collapsed]; in_python_block := false |}
  /\ fix_code_block_line closing_collapsed = [py "```" ++ NL; repeat 120%N 150 ++ NL].
Proof. vm_compute. repeat split; reflexivity. Qed.

(** C3, amended: of the lines that none of the first three branches takes,
    one that is read inside a Python block, has the escape and is longer
    than 150 characters is replaced by the output of the expander, and every
    other one is passed through; the flag stays as it is in both cases. *)
Theorem collapsed_or_unchanged (st : scan_state) (line : str) :
  opens line = false ->
  closes (in_python_block st) line = false ->
  glued line = false ->
  (in_python_block st = true -> Py.contains esc line = true ->
   (150 < Py.len line)%Z ->
   process_line st line
   = {| result := result st ++ fix_code_block_line line;
        in_python_block := in_python_block st |})
  /\ (collapsed (in_python_block st) line = false ->
      process_line st line
      = {| result := result st ++ [line];
           in_python_block := in_python_block st |}).
Proof.
  intros Ho Hc Hg. split.
  - intros Hin He Hlen.
    assert (Hx : collapsed (in_python_block st) line = true).
    { unfold collapsed. apply Z.ltb_lt in Hlen. now rewrite Hin, He, Hlen. }
    rewrite process_line_frame.
    now destruct (step_collapsed _ line Ho Hc Hg Hx) as [-> ->].
  - intros Hx. rewrite process_line_frame.
    now destruct (step_other _ line Ho Hc Hg Hx) as [-> ->].
Qed.

Lemma collapsed_or_unchanged_witness :
  process_line {| result := [fence_python ++ NL]; in_python_block := true |}
               collapsed_example
  = {| result := [fence_python ++ NL; py "import spacy" ++ NL;
                  py "# " ++ repeat 45%N 150 ++ NL;
                  py "nlp = spacy.load('en')" ++ NL];
       in_python_block := true |}.
Proof.
  refine (eq_trans
            (proj1 (collapsed_or_unchanged
                      {| result := [fence_python ++ NL]; in_python_block := true |}
                      collapsed_example _ _ _) _ _ _) _).
  - reflexivity.
  - reflexivity.
  - reflexivity.
  - reflexivity.
  - reflexivity.
  - reflexivity.
  - vm_compute. reflexivity.
Defined.

(** * The rewriter: whole documents *)

(** C4 as stated fails: a line of prose that names the marker, read outside
    any block, is cut in three; and the glued line of the example, read
    outside any block, is replaced by three other lines.  Neither line is
    in the output. *)
Lemma outside_glued_counterexample :
  steps false [prose_marker]
  = [(false, prose_marker,
      [py "Use" ++ NL; fence_python ++ NL; py " to open a block." ++ NL])]
  /\ existsb (Py.eqb prose_marker) (rewrite_document [prose_marker]) = false
  /\ Py.eqb (concat (rewrite_document [prose_marker])) prose_marker = false
  /\ steps false [glued_example]
     = [(false, glued_example,
         [fence_python ++ NL; py "def foo():" ++ NL; py "    return 1" ++ NL])]
  /\ existsb (Py.eqb glued_example) (rewrite_document [glued_example]) = false
  /\ Py.eqb (concat (rewrite_document [glued_example])) glued_example = false.
Proof. vm_compute. repeat split; reflexivity. Qed.

(** C4, amended: the output of a document is what its iterations emit, in
    order, and an iteration that reads a line while no block is open emits
    that line and nothing else, unless the fence is glued to code on the
    line and the line is not itself taken as a fence. *)
Theorem outside_lines_unchanged (lines : list str) (line : str) (out : list str) :
  In (false, line, out) (steps false lines) ->
  opens line = true \/ glued line = false ->
  out = [line] /\ rewrite_document lines = concat (map snd (steps false lines)).
Proof.
  intros Hin Hrule. split; [|apply rewrite_steps].
  rewrite (steps_emitted _ _ _ _ _ Hin).
  destruct (opens line) eqn:Ho.
  - now destruct (step_opens false line Ho).
  - destruct Hrule as [Hrule|Hg]; [discriminate|].
    assert (Hc : closes false line = false) by (unfold closes; apply andb_false_r).
    assert (Hx : collapsed false line = false) by reflexivity.
    now destruct (step_other false line Ho Hc Hg Hx).
Qed.

Lemma outside_lines_unchanged_witness :
  In (false, prose_escape, emitted false prose_escape) (steps false prose_document)
  /\ emitted false prose_escape = [prose_escape].
Proof.
  assert (H : In (false, prose_escape, emitted false prose_escape)
                 (steps false prose_document)) by (left; reflexivity).
  split; [exact H|].
  apply (outside_lines_unchanged prose_document prose_escape _ H).
  right. reflexivity.
Defined.


(** * The run: read, rewrite, write *)

(** C8: when the file is absent or cannot be decoded, [main] raises the
    error of the read and leaves its environment as it was: nothing is
    written and nothing is logged.  No other error is raised: when the file
    is a text, [main] returns, and what it does is the read, then the one
    write of the whole output, then the two reports. *)
Theorem main_read_failure (w : world) :
  (target w = Absent -> main w = (inl FileNotFoundError, w))
  /\ (target w = Undecodable -> main w = (inl UnicodeDecodeError, w))
  /\ (forall content, target w = Text content ->
        let lines := lines_of [] (universal_newlines content) in
        main w
        = (inr tt,
           {| target := Text (concat (rewrite_document lines));
              log := log w ++ [Read; Write (concat (rewrite_document lines));
                               Print (Py.len lines) (Py.len (rewrite_document lines));
                               PrintExpansion (Py.len (rewrite_document lines) - Py.len lines)] |})).
Proof.
  destruct w as [f l]. unfold main, bind, readlines, writelines, print.
  cbn [target log]. repeat split.
  - now intros ->.
  - now intros ->.
  - intros content ->. cbn [target log]. now rewrite <- !app_assoc.
Qed.

Lemma main_read_failure_witness :
  main {| target := Absent; log := [] |}
  = (inl FileNotFoundError, {| target := Absent; log := [] |}).
Proof.
  exact (proj1 (main_read_failure {| target := Absent; log := [] |}) eq_refl).
Defined.

(** * More on the expander: what its lines add up to *)

Section ExpanderOutput.

Lemma replace_join_split (sep new s : str) :
  sep <> [] -> Py.replace sep new s = join new (Py.split sep s).
Proof.
  intros Hsep. pattern s. apply (occurrence_ind sep); [assumption | |]; clear s.
  - intros s H. now rewrite replace_none, split_none.
  - intros s i E IH. destruct sep as [|c sep']; [congruence|].
    rewrite (replace_some _ _ _ _ _ E), (split_some _ _ _ _ E).
    rewrite join_cons by apply split_nonempty. now rewrite IH.
Qed.

Lemma unquote_empty : Py.replace esc_quote quote [] = [].
Proof. now apply replace_none. Qed.

Lemma concat_emitted_fragment (fragment : str) :
  concat (emitted_fragment false fragment)
  = Py.replace esc_quote quote fragment ++ NL.
Proof.
  destruct fragment as [|c f]; unfold emitted_fragment, unescaped_line;
    cbn [concat]; rewrite app_nil_r; [now rewrite unquote_empty | reflexivity].
Qed.

Lemma concat_emitted (fragments : list str) :
  fragments <> [] ->
  concat (emitted_fragments fragments)
  = join NL (map (Py.replace esc_quote quote) fragments)
    ++ match last fragments [] with [] => [] | _ :: _ => NL end.
Proof.
  induction fragments as [|f rest IH]; [congruence|]. intros _.
  destruct rest as [|g rest].
  - destruct f as [|c f]; unfold emitted_fragments, emitted_fragment, unescaped_line;
      cbn [concat map join last app]; rewrite ?app_nil_r;
      [now rewrite unquote_empty | reflexivity].
  - rewrite last_cons by discriminate.
    change (emitted_fragments (f :: g :: rest))
      with (emitted_fragment false f ++ emitted_fragments (g :: rest)).
    change (map (Py.replace esc_quote quote) (f :: g :: rest))
      with (Py.replace esc_quote quote f
            :: map (Py.replace esc_quote quote) (g :: rest)).
    rewrite join_cons by (cbn [map]; discriminate).
    rewrite concat_app, concat_emitted_fragment.
    rewrite IH by discriminate.
    now rewrite <- !app_assoc.
Qed.

Lemma length_emitted (fragments : list str) :
  fragments <> [] ->
  length (emitted_fragments fragments)
  = length fragments - match last fragments [] with [] => 1 | _ :: _ => 0 end.
Proof.
  induction fragments as [|f rest IH]; [congruence|]. intros _.
  destruct rest as [|g rest].
  - destruct f; reflexivity.
  - rewrite last_cons by discriminate.
    change (emitted_fragments (f :: g :: rest))
      with (emitted_fragment false f ++ emitted_fragments (g :: rest)).
    rewrite length_app. rewrite IH by discriminate.
    assert (H1 : length (emitted_fragment false f) = 1) by (destruct f; reflexivity).
    rewrite H1. cbn [length].
    destruct (last (g :: rest) []); lia.
Qed.

Lemma emitted_terminated (fragments : list str) :
  Forall terminated (emitted_fragments fragments).
Proof.
  induction fragments as [|f rest IH]; [constructor|].
  cbn [emitted_fragments]. apply Forall_app. split; [|assumption].
  destruct f as [|c f]; simpl.
  - destruct rest; repeat constructor. now exists [].
  - repeat constructor. now exists (Py.replace esc_quote quote (c :: f)).
Qed.

Lemma expand_terminated (line : str) :
  Py.contains esc line = true -> Forall terminated (fix_code_block_line line).
Proof.
  intros H. rewrite expand_escaped by assumption. apply emitted_terminated.
Qed.

Lemma unquote_parts (sep line : str) :
  sep <> [] -> Py.contains esc_quote line = false ->
  map (Py.replace esc_quote quote) (Py.split sep line) = Py.split sep line.
Proof.
  intros Hsep Hq. rewrite <- (map_id (Py.split sep line)) at 2.
  apply map_ext_in. intros part Hin. apply replace_none.
  apply contains_false_iff. apply contains_false_iff in Hq.
  intros Hocc. apply Hq.
  pose proof (split_parts_occur sep line Hsep) as H.
  rewrite Forall_forall in H. exact (occurs_trans _ _ _ Hocc (H _ Hin)).
Qed.

Lemma flat_map_singletons {A} (f : A -> list A) (l : list A) :
  Forall (fun x => f x = [x]) l -> flat_map f l = l.
Proof.
  induction 1 as [|x l Hx Hl IH]; [reflexivity|].
  cbn [flat_map]. now rewrite Hx, IH.
Qed.

End ExpanderOutput.

(** X1: put end to end, the lines the expander emits for a line with the
    escape are the fragments of the line, quotes unescaped, joined by
    newlines, with one more newline when the final fragment is not empty;
    when the line has no escaped quote this is the line itself with every
    escape replaced by a newline, and that one more newline. *)
Theorem expander_joined (line : str) :
  Py.contains esc line = true ->
  concat (fix_code_block_line line)
  = join NL (map (Py.replace esc_quote quote) (Py.split esc line))
    ++ match last (Py.split esc line) [] with [] => [] | _ :: _ => NL end
  /\ (Py.contains esc_quote line = false ->
      concat (fix_code_block_line line)
      = Py.replace esc NL line
        ++ match last (Py.split esc line) [] with [] => [] | _ :: _ => NL end).
Proof.
  intros He.
  assert (H : concat (fix_code_block_line line)
              = join NL (map (Py.replace esc_quote quote) (Py.split esc line))
                ++ match last (Py.split esc line) [] with [] => [] | _ :: _ => NL end).
  { rewrite expand_escaped by assumption. apply concat_emitted, split_nonempty. }
  split; [exact H|]. intros Hq. rewrite H.
  rewrite unquote_parts by (assumption || apply esc_nonempty).
  now rewrite <- replace_join_split by apply esc_nonempty.
Qed.

Lemma expander_joined_witness :
  concat (fix_code_block_line (py "x = 1\n\ny = 2"))
  = py "x = 1" ++ NL ++ NL ++ py "y = 2" ++ NL.
Proof.
  destruct (expander_joined (py "x = 1\n\ny = 2") eq_refl) as [_ H].
  rewrite (H eq_refl). vm_compute. reflexivity.
Defined.

(** X2: for a line with the escape the expander emits one line for each
    fragment of the line, except for an empty final fragment, for which it
    emits none. *)
Theorem expander_line_count (line : str) :
  Py.contains esc line = true ->
  length (fix_code_block_line line)
  = length (Py.split esc line)
    - match last (Py.split esc line) [] with [] => 1 | _ :: _ => 0 end.
Proof.
  intros He. rewrite expand_escaped by assumption.
  apply length_emitted, split_nonempty.
Qed.

Lemma expander_line_count_witness :
  length (fix_code_block_line (py "a\n\nb\n")) = 3
  /\ length (Py.split esc (py "a\n\nb\n")) = 4.
Proof.
  split; [|vm_compute; reflexivity].
  rewrite (expander_line_count (py "a\n\nb\n") eq_refl). vm_compute. reflexivity.
Defined.

(** X3: every line the expander emits for a line with the escape ends with
    a newline (so none is empty), whether or not the input line did. *)
Theorem expander_lines_terminated (line : str) :
  Py.contains esc line = true ->
  Forall (fun out => exists body, out = body ++ NL) (fix_code_block_line line).
Proof. apply expand_terminated. Qed.

Lemma expander_lines_terminated_witness :
  Forall (fun out => exists body, out = body ++ NL)
         (fix_code_block_line (py "a\nb")).
Proof. exact (expander_lines_terminated (py "a\nb") eq_refl). Defined.

(** X4: the expander has nothing left to do on its own output: expanding
    each line it returned gives the same lines again. *)
Theorem expander_twice (line : str) :
  flat_map fix_code_block_line (fix_code_block_line line)
  = fix_code_block_line line.
Proof.
  apply flat_map_singletons.
  destruct (Py.contains esc line) eqn:He.
  - eapply Forall_impl; [|apply (expand_no_escape line He)].
    intros out Hout. now apply expand_plain.
  - rewrite expand_plain by assumption. repeat constructor.
    now apply expand_plain.
Qed.

(** * More on the loop: what it keeps *)

Section LoopKeeps.

Lemma step_quiet (inside : bool) (line : str) :
  quiet line -> emitted inside line = [line].
Proof.
  intros [Hg Hq].
  destruct (opens line) eqn:Ho; [now destruct (step_opens inside line Ho)|].
  destruct (closes inside line) eqn:Hc; [now destruct (step_closes inside line Ho Hc)|].
  assert (Hx : collapsed inside line = false).
  { unfold collapsed. destruct Hq as [->|Hlen].
    - now rewrite andb_false_r.
    - replace (150 <? Py.len line)%Z with false by (symmetry; apply Z.ltb_ge; lia).
      apply andb_false_r. }
  now destruct (step_other inside line Ho Hc Hg Hx).
Qed.

Lemma output_quiet (lines : list str) (inside : bool) :
  Forall quiet lines -> output_from inside lines = lines.
Proof.
  intros H. revert inside. induction H as [|line rest Hline Hrest IH]; intros inside.
  - reflexivity.
  - change (output_from inside (line :: rest))
      with (emitted inside line ++ output_from (next_state inside line) rest).
    now rewrite step_quiet, IH.
Qed.

Lemma state_after_scan (lines : list str) :
  state_after false lines = in_python_block (scan lines).
Proof. unfold scan. now rewrite scan_from_steps. Qed.

Lemma glued_index (line : str) :
  glued line = true -> exists i, Py.index_of fence_python line = Some i.
Proof.
  unfold glued. intros Hg. apply andb_true_iff in Hg as [Hg _].
  apply andb_true_iff in Hg as [Hg _]. unfold Py.contains in Hg.
  destruct (Py.index_of fence_python line) as [i|]; [now exists i | discriminate].
Qed.

(** What follows the marker on a line that ends with a newline ends with
    that newline. *)
Lemma rest_terminated (line : str) (i : nat) :
  terminated line -> Py.index_of fence_python line = Some i ->
  terminated (skipn (i + 9) line).
Proof.
  intros [body Hbody] E. destruct (index_of_cut _ _ _ E) as [Hs _].
  change (length fence_python) with 9 in Hs.
  destruct (skipn (i + 9) line) as [|c rest] eqn:Er.
  - exfalso. rewrite Hbody in Hs at 1. rewrite app_nil_r in Hs.
    change fence_python with (py "```pytho" ++ [110%N]) in Hs.
    rewrite !app_assoc in Hs. apply app_inj_tail in Hs as [_ Hs]. discriminate.
  - destruct (@exists_last _ (c :: rest)) as (l & a & Hla); [discriminate|].
    rewrite Hla in *. rewrite Hbody in Hs at 1. rewrite !app_assoc in Hs.
    apply app_inj_tail in Hs as [_ <-]. now exists l.
Qed.

Lemma step_terminated (inside : bool) (line : str) :
  terminated line -> Forall terminated (emitted inside line).
Proof.
  intros Ht.
  destruct (opens line) eqn:Ho.
  { destruct (step_opens inside line Ho) as [-> _]. now repeat constructor. }
  destruct (closes inside line) eqn:Hc.
  { destruct (step_closes inside line Ho Hc) as [-> _]. now repeat constructor. }
  destruct (glued line) eqn:Hg.
  - destruct (glued_index line Hg) as [i Hi].
    destruct (step_glued inside line i Ho Hc Hg Hi) as [-> _].
    apply Forall_app. split.
    + destruct (0 <? i); repeat constructor.
      now exists (Py.rstrip (firstn i line)).
    + constructor; [now exists fence_python|].
      pose proof (rest_terminated line i Ht Hi) as Hrest.
      destruct (Py.contains esc (skipn (i + 9) line)) eqn:He.
      * now apply expand_terminated.
      * rewrite expand_plain by assumption. now repeat constructor.
  - destruct (collapsed inside line) eqn:Hx.
    + destruct (step_collapsed inside line Ho Hc Hg Hx) as [-> _].
      unfold collapsed in Hx. apply andb_true_iff in Hx as [Hx _].
      apply andb_true_iff in Hx as [_ He]. now apply expand_terminated.
    + destruct (step_other inside line Ho Hc Hg Hx) as [-> _]. now repeat constructor.
Qed.

Lemma output_terminated (lines : list str) (inside : bool) :
  Forall terminated lines -> Forall terminated (output_from inside lines).
Proof.
  intros H. revert inside. induction H as [|line rest Hline Hrest IH]; intros inside.
  - constructor.
  - change (output_from inside (line :: rest))
      with (emitted inside line ++ output_from (next_state inside line) rest).
    apply Forall_app. split; [now apply step_terminated | apply IH].
Qed.

End LoopKeeps.

(** X5: a line without three consecutive backticks never changes the fence
    flag, and the loop appends for it what the expander makes of it exactly
    when a block is open and the line has the escape and more than 150
    characters, and the line as it is otherwise. *)
Theorem flag_changes_at_fences (st : scan_state) (line : str) :
  Py.contains fence line = false ->
  process_line st line
  = {| result := result st
                 ++ (if in_python_block st && Py.contains esc line
                        && (150 <? Py.len line)%Z
                     then fix_code_block_line line
                     else [line]);
       in_python_block := in_python_block st |}.
Proof.
  intros Hf. rewrite process_line_frame.
  destruct (no_fence_rules (in_python_block st) line Hf) as (Ho & Hc & Hg).
  change (in_python_block st && Py.contains esc line && (150 <? Py.len line)%Z)
    with (collapsed (in_python_block st) line).
  destruct (collapsed (in_python_block st) line) eqn:Hx.
  - now destruct (step_collapsed _ line Ho Hc Hg Hx) as [-> ->].
  - now destruct (step_other _ line Ho Hc Hg Hx) as [-> ->].
Qed.

Lemma flag_changes_at_fences_witness :
  process_line {| result := []; in_python_block := true |} collapsed_example
  = {| result := [py "import spacy" ++ NL; py "# " ++ repeat 45%N 150 ++ NL;
                  py "nlp = spacy.load('en')" ++ NL];
       in_python_block := true |}.
Proof.
  rewrite (flag_changes_at_fences {| result := []; in_python_block := true |}
             collapsed_example eq_refl).
  vm_compute. reflexivity.
Defined.

(** X6: a document is returned as it is when on none of its lines the fence
    is glued to code and every line with the escape has at most 150
    characters, whatever fences it opens and closes. *)
Theorem quiet_document_unchanged (lines : list str) :
  Forall quiet lines -> rewrite_document lines = lines.
Proof. intros H. rewrite rewrite_output. now apply output_quiet. Qed.

Lemma short_collapsed_quiet : Forall quiet short_collapsed.
Proof.
  unfold short_collapsed. repeat apply Forall_cons; try apply Forall_nil;
    (split; [reflexivity|]); first [left; reflexivity | right; vm_compute; discriminate].
Defined.

Lemma quiet_document_unchanged_witness :
  rewrite_document short_collapsed = short_collapsed.
Proof. exact (quiet_document_unchanged short_collapsed short_collapsed_quiet). Defined.

(** X7: the output for the first lines of a document is the beginning of the
    output for the document, and what the remaining lines add has at least
    one line for each of them; when the first lines leave no block open, the
    output of the document is the output of the first lines followed by the
    output of the remaining ones taken alone. *)
Theorem rewrite_document_app (l1 l2 : list str) :
  (exists tail, rewrite_document (l1 ++ l2) = rewrite_document l1 ++ tail
                /\ length l2 <= length tail)
  /\ (in_python_block (scan l1) = false ->
      rewrite_document (l1 ++ l2) = rewrite_document l1 ++ rewrite_document l2).
Proof.
  rewrite !rewrite_output, output_from_app, state_after_scan. split.
  - exists (output_from (in_python_block (scan l1)) l2).
    split; [reflexivity | apply output_from_length].
  - intros ->. reflexivity.
Qed.

Lemma rewrite_document_app_witness :
  rewrite_document (short_collapsed ++ [glued_example])
  = rewrite_document short_collapsed ++ rewrite_document [glued_example].
Proof.
  exact (proj2 (rewrite_document_app short_collapsed [glued_example]) eq_refl).
Defined.

(** * The lines of a file *)

Section FileLines.

Lemma concat_lines_of (s cur : str) : concat (lines_of cur s) = rev cur ++ s.
Proof.
  revert cur. induction s as [|c s IH]; intros cur.
  - destruct cur; simpl; now rewrite ?app_nil_r.
  - cbn [lines_of]. destruct (c =? 10)%N.
    + cbn [concat]. rewrite IH. simpl. now rewrite <- app_assoc.
    + rewrite IH. simpl. now rewrite <- app_assoc.
Qed.

Lemma removelast_cons {A} (x : A) (l : list A) :
  l <> [] -> removelast (x :: l) = x :: removelast l.
Proof. destruct l; [congruence | reflexivity]. Qed.

Lemma Forall_removelast_cons {A} (P : A -> Prop) (x : A) (l : list A) :
  P x -> Forall P (removelast l) -> Forall P (removelast (x :: l)).
Proof.
  intros Hx Hl. destruct l as [|y l]; [constructor|].
  rewrite removelast_cons by discriminate. now constructor.
Qed.

Lemma lines_of_shape (s cur : str) :
  ~ In 10%N cur ->
  Forall file_line (lines_of cur s)
  /\ Forall terminated (removelast (lines_of cur s)).
Proof.
  revert cur. induction s as [|c s IH]; intros cur Hcur.
  - destruct cur as [|d cur]; simpl; split; try constructor; try constructor.
    + intros H. apply app_eq_nil in H as [_ H]. discriminate.
    + exists (rev cur ++ [d]). split; [|now right].
      intros Hin. apply Hcur. apply in_rev. simpl. exact Hin.
  - cbn [lines_of]. destruct (N.eqb_spec c 10) as [->|Hc].
    + destruct (IH [] (fun H => H)) as [IH1 IH2]. split.
      * constructor; [|assumption]. split.
        -- simpl. intros H. apply app_eq_nil in H as [_ H]. discriminate.
        -- exists (rev cur). split; [|now left].
           intros Hin. apply Hcur. now apply in_rev.
      * apply Forall_removelast_cons; [|assumption]. now exists (rev cur).
    + apply IH. intros [H|H]; [congruence | now apply Hcur].
Qed.

(** A line without a newline, then a newline, is read as one line. *)
Lemma lines_of_line (body t cur : str) :
  ~ In 10%N body ->
  lines_of cur (body ++ NL ++ t) = (rev cur ++ body ++ NL) :: lines_of [] t.
Proof.
  revert cur. induction body as [|c body IH]; intros cur Hb.
  - simpl. reflexivity.
  - change ((c :: body) ++ NL ++ t) with (c :: (body ++ NL ++ t)).
    cbn [lines_of]. destruct (N.eqb_spec c 10) as [->|Hc].
    + exfalso. apply Hb. now left.
    + rewrite IH by (intros H; apply Hb; now right).
      simpl. now rewrite <- app_assoc.
Qed.

Lemma lines_of_last (body : str) :
  ~ In 10%N body -> body <> [] -> lines_of [] body = [body].
Proof.
  intros Hb Hne.
  assert (H : forall cur, cur <> [] \/ body <> [] ->
                          lines_of cur body = [rev cur ++ body]).
  { clear Hne. induction body as [|c body IH]; intros cur Hcur.
    - destruct cur; [destruct Hcur; congruence|]. simpl. now rewrite app_nil_r.
    - cbn [lines_of]. destruct (N.eqb_spec c 10) as [->|Hc].
      + exfalso. apply Hb. now left.
      + rewrite IH.
        * simpl. now rewrite <- app_assoc.
        * intros H. apply Hb. now right.
        * left. discriminate. }
  apply (H []). now right.
Qed.

Lemma file_line_terminated (line : str) :
  file_line line -> terminated line ->
  exists body, ~ In 10%N body /\ line = body ++ NL.
Proof.
  intros [_ (body & Hb & [H|H])] [b' Hb'].
  - now exists body.
  - exfalso. apply Hb. rewrite <- H, Hb'. apply in_or_app. right. now left.
Qed.

Lemma lines_of_concat (lines : list str) :
  file_lines lines -> lines_of [] (concat lines) = lines.
Proof.
  intros [Hf Ht]. induction lines as [|line rest IH]; [reflexivity|].
  inversion Hf as [|? ? Hline Hrest]; subst.
  destruct rest as [|next rest].
  - simpl. rewrite app_nil_r.
    destruct Hline as [Hne (body & Hb & [->| ->])].
    + pose proof (lines_of_line body [] [] Hb) as H.
      rewrite app_nil_r in H. exact H.
    + now apply lines_of_last.
  - rewrite removelast_cons in Ht by discriminate.
    inversion Ht as [|? ? Hterm Ht']; subst.
    destruct (file_line_terminated line Hline Hterm) as (body & Hb & ->).
    cbn [concat]. rewrite <- app_assoc.
    rewrite lines_of_line by assumption. simpl rev. cbn [app].
    f_equal. now apply IH.
Qed.

Lemma universal_newlines_no_cr (s : str) : no_cr (universal_newlines s).
Proof.
  unfold no_cr.
  induction s as [s IH] using (induction_ltof1 _ (@length char)). unfold ltof in IH.
  destruct s as [|c s]; [simpl; tauto|].
  cbn [universal_newlines]. destruct (N.eqb_spec c 13) as [->|Hc].
  - destruct s as [|d s]; [simpl; intuition discriminate|].
    destruct (d =? 10)%N.
    + intros [H|H]; [discriminate|]. apply (IH s); [simpl; lia | assumption].
    + intros [H|H]; [discriminate|]. apply (IH (d :: s)); [simpl; lia | assumption].
  - intros [H|H]; [congruence|]. apply (IH s); [simpl; lia | assumption].
Qed.

Lemma universal_newlines_id (s : str) : no_cr s -> universal_newlines s = s.
Proof.
  unfold no_cr. induction s as [|c s IH]; [reflexivity|]. intros H.
  cbn [universal_newlines]. destruct (N.eqb_spec c 13) as [->|Hc].
  - exfalso. apply H. now left.
  - f_equal. apply IH. intros Hin. apply H. now right.
Qed.

(** Stripping leaves no whitespace at the end. *)
Lemma lstrip_head (s t : str) (c : char) :
  Py.lstrip s = c :: t -> Py.isspace c = false.
Proof.
  induction s as [|d s IH]; [discriminate|]. cbn [Py.lstrip].
  destruct (Py.isspace d) eqn:E; [assumption|]. now intros [= <- _].
Qed.

Lemma rstrip_last (s t : str) (c : char) :
  Py.rstrip s = t ++ [c] -> Py.isspace c = false.
Proof.
  unfold Py.rstrip. intros H.
  apply (f_equal (@rev char)) in H. rewrite rev_involutive, rev_app_distr in H.
  simpl in H. exact (lstrip_head _ _ _ H).
Qed.

Lemma occurs_in (p s : str) (c : char) : occurs p s -> In c p -> In c s.
Proof.
  intros (a & b & ->) H. apply in_or_app. right. apply in_or_app. now left.
Qed.

Lemma newline_is_last (x y body : str) :
  ~ In 10%N body -> x ++ 10%N :: y = body ++ NL -> y = [].
Proof.
  intros Hb H. destruct y as [|d y]; [reflexivity|]. exfalso.
  destruct (@exists_last _ (d :: y)) as (y' & e & Hy); [discriminate|].
  rewrite Hy in H.
  change (x ++ 10%N :: y' ++ [e]) with (x ++ (10%N :: y') ++ [e]) in H.
  rewrite app_assoc in H. apply app_inj_tail in H as [H _].
  apply Hb. rewrite <- H. apply in_or_app. right. now left.
Qed.

Lemma strip_no_newline (line : str) : file_line line -> ~ In 10%N (Py.strip line).
Proof.
  intros [_ (body & Hb & Hline)] Hin.
  destruct (strip_occurs line) as (a & b & Hab).
  destruct Hline as [Hline|Hline].
  - apply in_split in Hin as (u & v & Huv).
    rewrite Huv in Hab. rewrite Hline in Hab at 1.
    rewrite <- !app_assoc in Hab. rewrite app_assoc in Hab. simpl in Hab.
    symmetry in Hab. apply newline_is_last in Hab; [|assumption].
    apply app_eq_nil in Hab as [-> _].
    unfold Py.strip in Huv. apply rstrip_last in Huv. discriminate.
  - apply Hb. rewrite <- Hline. rewrite Hab.
    apply in_or_app. right. apply in_or_app. now left.
Qed.

Lemma file_line_opens (line : str) :
  file_line line ->
  Py.startswith (fence_python ++ NL) (Py.strip line) = false.
Proof.
  intros Hl. apply not_true_false. intros H.
  apply startswith_occurs in H. apply (strip_no_newline line Hl).
  apply (occurs_in _ _ 10%N H). apply in_or_app. right. now left.
Qed.

End FileLines.

Lemma concat_no_cr (lines : list str) : Forall no_cr lines -> no_cr (concat lines).
Proof.
  unfold no_cr. intros H Hin. apply in_concat in Hin as (line & Hline & Hc).
  rewrite Forall_forall in H. exact (H line Hline Hc).
Qed.

Lemma lines_no_cr (lines : list str) : no_cr (concat lines) -> Forall no_cr lines.
Proof.
  unfold no_cr. intros H. apply Forall_forall. intros line Hline Hc.
  apply H. apply in_concat. now exists line.
Qed.

(** X8: reading and writing are a round trip, up to the carriage returns
    that the read translates.  The lines [readlines] returns, put end to end
    as [writelines] does, are the text with every carriage return, alone or
    before a newline, read as a newline, hence the text itself when it has
    no carriage return; each line is non-empty, has no carriage return and
    no newline before its last character, and only the last may lack its
    newline; and lines of that shape, written by [writelines] and read by
    [readlines], are read as they were. *)
Theorem readlines_roundtrip (w : world) :
  (forall content, target w = Text content ->
     exists lines,
       fst (readlines w) = inr lines
       /\ concat lines = universal_newlines content
       /\ (no_cr content ->
           target (snd (writelines lines (snd (readlines w)))) = Text content)
       /\ file_lines lines /\ Forall no_cr lines)
  /\ (forall lines, file_lines lines -> Forall no_cr lines ->
        fst (readlines (snd (writelines lines w))) = inr lines).
Proof.
  split.
  - intros content Hw. exists (lines_of [] (universal_newlines content)).
    unfold readlines, writelines. rewrite Hw. cbn [fst snd target].
    pose proof (concat_lines_of (universal_newlines content) []) as Hc.
    cbn [rev app] in Hc. repeat split.
    + exact Hc.
    + intros Hcr. now rewrite Hc, universal_newlines_id.
    + apply (lines_of_shape (universal_newlines content) []). intros H. exact H.
    + apply (lines_of_shape (universal_newlines content) []). intros H. exact H.
    + apply lines_no_cr. rewrite Hc. apply universal_newlines_no_cr.
  - intros lines Hl Hcr. unfold readlines, writelines. cbn [fst snd target].
    rewrite universal_newlines_id by now apply concat_no_cr.
    now rewrite lines_of_concat.
Qed.

Lemma short_collapsed_file_lines : file_lines short_collapsed.
Proof.
  split.
  - repeat apply Forall_cons; try apply Forall_nil;
      (split; [discriminate|]); eexists; (split; [|left; reflexivity]);
      cbv; intuition discriminate.
  - repeat apply Forall_cons; try apply Forall_nil; eexists; reflexivity.
Defined.

Lemma short_collapsed_no_cr : Forall no_cr short_collapsed.
Proof.
  repeat apply Forall_cons; try apply Forall_nil; cbv; intuition discriminate.
Defined.

Lemma readlines_roundtrip_witness :
  fst (readlines (snd (writelines short_collapsed {| target := Absent; log := [] |})))
  = inr short_collapsed.
Proof.
  exact (proj2 (readlines_roundtrip {| target := Absent; log := [] |})
               short_collapsed short_collapsed_file_lines short_collapsed_no_cr).
Defined.

(** X9: on a line read from a file, the second test of the first branch
    (the stripped line starts with the marker and a newline) is never true:
    stripping leaves no newline in such a line.  The first branch is taken
    exactly when the stripped line is the marker. *)
Theorem fence_test_on_file_lines (content line : str) :
  In line (lines_of [] (universal_newlines content)) ->
  Py.startswith (fence_python ++ NL) (Py.strip line) = false
  /\ ~ In 10%N (Py.strip line)
  /\ opens line = Py.eqb (Py.strip line) fence_python.
Proof.
  intros Hin.
  assert (Hl : file_line line).
  { destruct (lines_of_shape (universal_newlines content) [] (fun H => H)) as [H _].
    rewrite Forall_forall in H. now apply H. }
  pose proof (file_line_opens line Hl) as H.
  split; [exact H|]. split; [now apply strip_no_newline|].
  unfold opens. rewrite H. apply orb_false_r.
Qed.

Lemma fence_test_on_file_lines_witness :
  opens (py "```python" ++ NL) = Py.eqb (Py.strip (py "```python" ++ NL)) fence_python.
Proof.
  refine (proj2 (proj2 (fence_test_on_file_lines block_text (py "```python" ++ NL) _))).
  vm_compute. right. left. reflexivity.
Defined.

(** X11: on a text none of whose lines the third or the fourth branch can
    take, [main] writes back the text as it read it and reports as many
    lines after as before and an expansion of 0; if the text has no carriage
    return, the file is left with the content it had. *)
Theorem main_on_quiet_text (w : world) (content : str) :
  target w = Text content ->
  Forall quiet (lines_of [] (universal_newlines content)) ->
  main w
  = (inr tt,
     {| target := Text (universal_newlines content);
        log := log w
               ++ [Read; Write (universal_newlines content);
                   Print (Py.len (lines_of [] (universal_newlines content)))
                         (Py.len (lines_of [] (universal_newlines content)));
                   PrintExpansion 0] |})
  /\ (no_cr content -> target (snd (main w)) = target w).
Proof.
  intros Ht Hq.
  assert (H : main w
              = (inr tt,
                 {| target := Text (universal_newlines content);
                    log := log w
                           ++ [Read; Write (universal_newlines content);
                               Print (Py.len (lines_of [] (universal_newlines content)))
                                     (Py.len (lines_of [] (universal_newlines content)));
                               PrintExpansion 0] |})).
  { destruct w as [f l]. cbn [target] in Ht. subst f.
    unfold main, bind, readlines, writelines, print. cbn [target log].
    rewrite rewrite_output, (output_quiet _ false Hq), (concat_lines_of _ []).
    cbn [rev app]. rewrite Z.sub_diag, <- !app_assoc. reflexivity. }
  split; [exact H|]. intros Hcr. rewrite H. cbn [snd target].
  now rewrite universal_newlines_id, Ht.
Qed.

Lemma block_text_quiet : Forall quiet (lines_of [] (universal_newlines block_text)).
Proof.
  vm_compute lines_of. repeat apply Forall_cons; try apply Forall_nil;
    (split; [reflexivity|]); left; reflexivity.
Defined.

Lemma main_on_quiet_text_witness :
  target (snd (main {| target := Text block_text; log := [] |})) = Text block_text.
Proof.
  refine (proj2 (main_on_quiet_text {| target := Text block_text; log := [] |}
                   block_text eq_refl block_text_quiet) _).
  cbv. intuition discriminate.
Defined.

(** * The characters of the output *)

Section Characters.

Lemma in_firstn {A} (x : A) (n : nat) (l : list A) : In x (firstn n l) -> In x l.
Proof.
  intros H. rewrite <- (firstn_skipn n l). apply in_or_app. now left.
Qed.

Lemma in_skipn {A} (x : A) (n : nat) (l : list A) : In x (skipn n l) -> In x l.
Proof.
  intros H. rewrite <- (firstn_skipn n l). apply in_or_app. now right.
Qed.

Lemma replace_chars (old s : str) (q c : char) :
  In q old -> In c (Py.replace old [q] s) -> In c s.
Proof.
  intros Hq. destruct old as [|a old']; [now simp replace|].
  pattern s. apply (occurrence_ind (a :: old')); [discriminate | |]; clear s.
  - intros s H. now rewrite replace_none by assumption.
  - intros s i E IH. rewrite (replace_some _ _ _ _ _ E). intros Hin.
    destruct (index_of_cut _ _ _ E) as [Hs _].
    apply in_app_or in Hin as [Hin|Hin]; [now apply in_firstn in Hin|].
    apply in_app_or in Hin as [Hin|Hin].
    + destruct Hin as [<-|[]]. rewrite Hs.
      apply in_or_app. right. apply in_or_app. now left.
    + apply IH in Hin. now apply in_skipn in Hin.
Qed.

Lemma emitted_fragments_in (fragments : list str) (out : str) :
  In out (emitted_fragments fragments) ->
  out = NL \/ exists fragment, In fragment fragments /\ out = unescaped_line fragment.
Proof.
  induction fragments as [|f rest IH]; [intros []|].
  cbn [emitted_fragments]. intros Hin. apply in_app_or in Hin as [Hin|Hin].
  - destruct f as [|c f].
    + destruct rest; simpl in Hin; [tauto|]. destruct Hin as [<-|[]]. now left.
    + destruct Hin as [<-|[]]. right. exists (c :: f). split; [now left | reflexivity].
  - destruct (IH Hin) as [H|(g & Hg & H)]; [now left|].
    right. exists g. split; [now right | assumption].
Qed.

Lemma expand_chars (line out : str) (c : char) :
  In out (fix_code_block_line line) -> In c out -> In c line \/ c = 10%N.
Proof.
  destruct (Py.contains esc line) eqn:He.
  - rewrite expand_escaped by assumption. intros Hout Hc.
    apply emitted_fragments_in in Hout as [->|(f & Hf & ->)].
    + destruct Hc as [<-|[]]. tauto.
    + unfold unescaped_line in Hc. apply in_app_or in Hc as [Hc|Hc].
      * apply replace_chars in Hc; [|right; now left]. left.
        pose proof (split_parts_occur esc line esc_nonempty) as H.
        rewrite Forall_forall in H. destruct (H f Hf) as (a & b & ->).
        apply in_or_app. right. apply in_or_app. now left.
      * destruct Hc as [<-|[]]. tauto.
  - rewrite expand_plain by assumption. intros [<-|[]] Hc. now left.
Qed.

Lemma rstrip_in (s : str) (c : char) : In c (Py.rstrip s) -> In c s.
Proof.
  intros H. destruct (rstrip_prefix s) as [b Hb]. rewrite Hb.
  apply in_or_app. now left.
Qed.

Lemma emitted_chars (inside : bool) (line out : str) (c : char) :
  In out (emitted inside line) -> In c out -> In c line \/ c = 10%N.
Proof.
  destruct (opens line) eqn:Ho.
  { destruct (step_opens inside line Ho) as [-> _]. intros [<-|[]]. tauto. }
  destruct (closes inside line) eqn:Hc.
  { destruct (step_closes inside line Ho Hc) as [-> _]. intros [<-|[]]. tauto. }
  destruct (glued line) eqn:Hg.
  - destruct (glued_index line Hg) as [i Hi].
    destruct (step_glued inside line i Ho Hc Hg Hi) as [-> _].
    destruct (index_of_cut _ _ _ Hi) as [Hs _].
    intros Hout Hin. apply in_app_or in Hout as [Hout|Hout].
    + destruct (0 <? i); [|destruct Hout]. destruct Hout as [<-|[]].
      apply in_app_or in Hin as [Hin|Hin].
      * left. apply rstrip_in in Hin. now apply in_firstn in Hin.
      * destruct Hin as [<-|[]]. tauto.
    + destruct Hout as [<-|Hout].
      * apply in_app_or in Hin as [Hin|Hin].
        -- left. rewrite Hs. apply in_or_app. right. apply in_or_app. now left.
        -- destruct Hin as [<-|[]]. tauto.
      * destruct (expand_chars _ _ _ Hout Hin) as [H|H]; [|tauto].
        left. now apply in_skipn in H.
  - destruct (collapsed inside line) eqn:Hx.
    + destruct (step_collapsed inside line Ho Hc Hg Hx) as [-> _]. apply expand_chars.
    + destruct (step_other inside line Ho Hc Hg Hx) as [-> _]. intros [<-|[]]. tauto.
Qed.

Lemma output_chars (lines : list str) (inside : bool) (c : char) :
  In c (concat (output_from inside lines)) -> In c (concat lines) \/ c = 10%N.
Proof.
  revert inside. induction lines as [|line rest IH]; intros inside; [intros []|].
  change (output_from inside (line :: rest))
    with (emitted inside line ++ output_from (next_state inside line) rest).
  rewrite concat_app. cbn [concat]. intros Hin.
  apply in_app_or in Hin as [Hin|Hin].
  - apply in_concat in Hin as (out & Hout & Hc).
    destruct (emitted_chars _ _ _ _ Hout Hc) as [H|H]; [|tauto].
    left. apply in_or_app. now left.
  - destruct (IH _ Hin) as [H|H]; [|tauto]. left. apply in_or_app. now right.
Qed.

End Characters.

(** X12: the rewriter invents no character but the newline: every
    character of its output is a character of its input or a newline (the
    quote that replaces an escaped quote was in the input, after the
    backslash). *)
Theorem output_characters (lines : list str) (c : char) :
  In c (concat (rewrite_document lines)) -> In c (concat lines) \/ c = 10%N.
Proof. rewrite rewrite_output. apply output_chars. Qed.

Lemma output_characters_witness :
  In 100%N (concat [glued_example]) \/ 100%N = 10%N.
Proof.
  apply (output_characters [glued_example] 100%N).
  vm_compute. do 10 right. left. reflexivity.
Defined.

(** * The output as the next run reads it *)

Section NextRun.

Lemma Forall_removelast {A} (P : A -> Prop) (l : list A) :
  Forall P l -> Forall P (removelast l).
Proof.
  induction 1 as [|x l Hx Hl IH]; [constructor|].
  now apply Forall_removelast_cons.
Qed.

Lemma emitted_but_last (inside : bool) (line : str) :
  Forall terminated (removelast (emitted inside line)).
Proof.
  destruct (opens line) eqn:Ho.
  { destruct (step_opens inside line Ho) as [-> _]. constructor. }
  destruct (closes inside line) eqn:Hc.
  { destruct (step_closes inside line Ho Hc) as [-> _]. constructor. }
  destruct (glued line) eqn:Hg.
  - destruct (glued_index line Hg) as [i Hi].
    destruct (step_glued inside line i Ho Hc Hg Hi) as [-> _].
    assert (Hp : Forall terminated
                   ((if 0 <? i then [Py.rstrip (firstn i line) ++ NL] else [])
                      ++ [fence_python ++ NL])).
    { apply Forall_app. split.
      - destruct (0 <? i); repeat constructor. now exists (Py.rstrip (firstn i line)).
      - repeat constructor. now exists fence_python. }
    destruct (Py.contains esc (skipn (i + 9) line)) eqn:He.
    + apply Forall_removelast. rewrite app_assoc. apply Forall_app.
      split; [assumption | now apply expand_terminated].
    + rewrite expand_plain by assumption. rewrite app_assoc, removelast_last.
      assumption.
  - destruct (collapsed inside line) eqn:Hx.
    + destruct (step_collapsed inside line Ho Hc Hg Hx) as [-> _].
      unfold collapsed in Hx. apply andb_true_iff in Hx as [Hx _].
      apply andb_true_iff in Hx as [_ He].
      now apply Forall_removelast, expand_terminated.
    + destruct (step_other inside line Ho Hc Hg Hx) as [-> _]. constructor.
Qed.

Lemma output_but_last (lines : list str) (inside : bool) :
  Forall terminated (removelast lines) ->
  Forall terminated (removelast (output_from inside lines)).
Proof.
  revert inside. induction lines as [|line rest IH]; intros inside H; [constructor|].
  change (output_from inside (line :: rest))
    with (emitted inside line ++ output_from (next_state inside line) rest).
  destruct rest as [|next rest].
  - change (output_from (next_state inside line) []) with (@nil str).
    rewrite app_nil_r. apply emitted_but_last.
  - rewrite removelast_cons in H by discriminate.
    inversion H as [|? ? Hline Hrest]; subst.
    rewrite removelast_app.
    + apply Forall_app. split; [now apply step_terminated | now apply IH].
    + pose proof (output_from_length (next :: rest) (next_state inside line)) as Hlen.
      destruct (output_from (next_state inside line) (next :: rest));
        [simpl in Hlen; lia | discriminate].
Qed.

Lemma lines_of_app (a b cur : str) :
  terminated a -> lines_of cur (a ++ b) = lines_of cur a ++ lines_of [] b.
Proof.
  intros [body ->]. revert cur. induction body as [|c body IH]; intros cur.
  - reflexivity.
  - change (((c :: body) ++ NL) ++ b) with (c :: ((body ++ NL) ++ b)).
    change ((c :: body) ++ NL) with (c :: (body ++ NL)).
    cbn [lines_of]. destruct (c =? 10)%N.
    + now rewrite IH.
    + apply IH.
Qed.

Lemma lines_of_outputs (outs : list str) :
  Forall terminated (removelast outs) ->
  lines_of [] (concat outs) = flat_map (lines_of []) outs.
Proof.
  induction outs as [|out rest IH]; [reflexivity|]. intros H.
  destruct rest as [|next rest].
  - simpl. now rewrite !app_nil_r.
  - rewrite removelast_cons in H by discriminate.
    inversion H as [|? ? Hout Hrest]; subst.
    cbn [concat flat_map]. rewrite lines_of_app by assumption.
    f_equal. now apply IH.
Qed.

Lemma lines_of_pieces (s cur piece : str) :
  In piece (lines_of cur s) -> occurs piece (rev cur ++ s).
Proof.
  revert cur. induction s as [|c s IH]; intros cur.
  - destruct cur as [|d cur]; [intros []|]. intros [<-|[]].
    exists [], []. now rewrite !app_nil_r.
  - cbn [lines_of]. destruct (c =? 10)%N.
    + intros [<-|Hin].
      * exists [], s. simpl. now rewrite <- app_assoc.
      * apply IH in Hin. simpl in Hin.
        apply (occurs_app_r piece (rev cur ++ [c]) s) in Hin.
        now rewrite <- app_assoc in Hin.
    + intros Hin. apply IH in Hin. simpl in Hin. now rewrite <- app_assoc in Hin.
Qed.

Lemma inert_pieces (out : str) : inert out -> Forall inert (lines_of [] out).
Proof.
  intros [Hf He]. apply Forall_forall. intros piece Hin.
  apply lines_of_pieces in Hin. simpl in Hin.
  split; apply contains_false_iff; intros Hocc.
  - apply contains_false_iff in Hf. apply Hf. exact (occurs_trans _ _ _ Hocc Hin).
  - apply contains_false_iff in He. apply He. exact (occurs_trans _ _ _ Hocc Hin).
Qed.

Lemma lines_of_file_line (line : str) : file_line line -> lines_of [] line = [line].
Proof.
  intros [Hne (body & Hb & [->| ->])].
  - pose proof (lines_of_line body [] [] Hb) as H. now rewrite app_nil_r in H.
  - now apply lines_of_last.
Qed.

Lemma concat_reread (outs : list str) :
  concat (flat_map (lines_of []) outs) = concat outs.
Proof.
  induction outs as [|out rest IH]; [reflexivity|].
  cbn [flat_map concat]. now rewrite concat_app, IH, (concat_lines_of out []).
Qed.

(** What an iteration emits for a tame line of a file, read again line by
    line, is passed through, and the flag ends as it did. *)
Lemma step_reread (inside : bool) (line : str) :
  file_line line -> tame line ->
  output_from inside (flat_map (lines_of []) (emitted inside line))
  = flat_map (lines_of []) (emitted inside line)
  /\ state_after inside (flat_map (lines_of []) (emitted inside line))
     = next_state inside line.
Proof.
  intros Hl Ht.
  assert (Hone : forall b, emitted inside line = [line] -> next_state inside line = b ->
                           output_from inside (flat_map (lines_of []) [line])
                           = flat_map (lines_of []) [line]
                           /\ state_after inside (flat_map (lines_of []) [line]) = b).
  { intros b He Hn. cbn [flat_map]. rewrite app_nil_r, lines_of_file_line by assumption.
    unfold output_from, state_after.
    cbn [steps map concat snd fold_left]. rewrite He, Hn. now rewrite app_nil_r. }
  destruct (opens line) eqn:Ho.
  { destruct (step_opens inside line Ho) as [He Hn]. rewrite He, Hn. now apply Hone. }
  destruct (closes inside line) eqn:Hc.
  { destruct (step_closes inside line Ho Hc) as [He Hn]. rewrite He, Hn. now apply Hone. }
  destruct (glued line) eqn:Hg.
  { destruct (Ht (glued_has_fence line Hg)) as [_ H]. congruence. }
  destruct (collapsed inside line) eqn:Hx.
  - destruct (step_collapsed inside line Ho Hc Hg Hx) as [He Hn]. rewrite He, Hn.
    unfold collapsed in Hx. apply andb_true_iff in Hx as [Hx _].
    apply andb_true_iff in Hx as [_ Hesc].
    apply output_inert. apply Forall_flat_map.
    eapply Forall_impl; [intros out Hout; apply inert_pieces; exact Hout|].
    apply expand_inert; [assumption|].
    apply not_true_false. intros Hf. destruct (Ht Hf) as [H _]. congruence.
  - destruct (step_other inside line Ho Hc Hg Hx) as [He Hn]. rewrite He, Hn.
    now apply Hone.
Qed.

Lemma output_reread (lines : list str) :
  Forall file_line lines -> Forall tame lines ->
  forall inside,
    output_from inside (flat_map (lines_of []) (output_from inside lines))
    = flat_map (lines_of []) (output_from inside lines)
    /\ state_after inside (flat_map (lines_of []) (output_from inside lines))
       = state_after inside lines.
Proof.
  intros Hf. induction Hf as [|line rest Hline Hrest IH]; intros Ht inside;
    [now split|].
  inversion Ht as [|? ? Htl Htr]; subst.
  change (output_from inside (line :: rest))
    with (emitted inside line ++ output_from (next_state inside line) rest).
  change (state_after inside (line :: rest))
    with (state_after (next_state inside line) rest).
  rewrite flat_map_app.
  destruct (step_reread inside line Hline Htl) as [H1 H2].
  destruct (IH Htr (next_state inside line)) as [IH1 IH2].
  rewrite output_from_app, state_after_app, H1, H2. now rewrite IH1, IH2.
Qed.

Lemma output_no_cr (lines : list str) (inside : bool) :
  no_cr (concat lines) -> no_cr (concat (output_from inside lines)).
Proof.
  unfold no_cr. intros H Hin. apply output_chars in Hin as [Hin|Hin].
  - now apply H.
  - discriminate.
Qed.

End NextRun.

(** X10: when every line of the input ends with a newline, so does every
    line of the output; and when only the last line of the input may lack
    its newline, as in the lines of a file, only the last line of the output
    may lack it. *)
Theorem output_lines_terminated (lines : list str) :
  (Forall (fun line => exists body, line = body ++ NL) lines ->
   Forall (fun out => exists body, out = body ++ NL) (rewrite_document lines))
  /\ (Forall (fun line => exists body, line = body ++ NL) (removelast lines) ->
      Forall (fun out => exists body, out = body ++ NL)
             (removelast (rewrite_document lines))).
Proof.
  rewrite rewrite_output. split; intros H.
  - now apply output_terminated.
  - now apply output_but_last.
Qed.

Lemma collapsed_document_terminated :
  Forall (fun line => exists body, line = body ++ NL) collapsed_document.
Proof.
  unfold collapsed_document. repeat apply Forall_cons; try apply Forall_nil;
    eexists; reflexivity.
Defined.

Lemma output_lines_terminated_witness :
  Forall (fun out => exists body, out = body ++ NL)
         (rewrite_document collapsed_document).
Proof.
  exact (proj1 (output_lines_terminated collapsed_document)
               collapsed_document_terminated).
Defined.

(** X13: a second run changes nothing.  When the lines of the text are tame
    (a line with three backticks has no backslash-n escape and no fence
    glued to code), [main] run on the file that [main] has written reads it,
    writes the same text back, and reports as many lines after as before:
    an expansion of 0. *)
Theorem second_run (w : world) (content : str) :
  target w = Text content ->
  Forall tame (lines_of [] (universal_newlines content)) ->
  exists written n,
    target (snd (main w)) = Text written
    /\ main (snd (main w))
       = (inr tt,
          {| target := Text written;
             log := log (snd (main w))
                    ++ [Read; Write written; Print n n; PrintExpansion 0] |}).
Proof.
  intros Hw Ht.
  set (lines := lines_of [] (universal_newlines content)) in *.
  destruct (lines_of_shape (universal_newlines content) [] (fun H => H))
    as [Hfile Hlast]. fold lines in Hfile, Hlast.
  set (written := concat (rewrite_document lines)).
  set (reread := flat_map (lines_of []) (rewrite_document lines)).
  assert (Hcr : no_cr written).
  { unfold written. rewrite rewrite_output. apply output_no_cr.
    unfold lines. rewrite (concat_lines_of _ []). apply universal_newlines_no_cr. }
  assert (Hread : lines_of [] (universal_newlines written) = reread).
  { rewrite universal_newlines_id by assumption. unfold written, reread.
    apply lines_of_outputs. rewrite rewrite_output. now apply output_but_last. }
  assert (Hout : rewrite_document reread = reread).
  { unfold reread. rewrite !rewrite_output. now apply output_reread. }
  assert (Hsame : concat reread = written) by apply concat_reread.
  exists written, (Py.len reread).
  assert (Hmain : main w
                  = (inr tt,
                     {| target := Text written;
                        log := log w
                               ++ [Read; Write written;
                                   Print (Py.len lines) (Py.len (rewrite_document lines));
                                   PrintExpansion
                                     (Py.len (rewrite_document lines) - Py.len lines)] |})).
  { destruct w as [f l]. cbn [target] in Hw. subst f.
    unfold main, bind, readlines, writelines, print. cbn [target log].
    now rewrite <- !app_assoc. }
  rewrite Hmain. cbn [snd target]. split; [reflexivity|].
  unfold main, bind, readlines, writelines, print. cbn [target log].
  rewrite Hread, Hout, Hsame, Z.sub_diag, <- !app_assoc. reflexivity.
Qed.

Lemma collapsed_text_tame :
  Forall tame (lines_of [] (universal_newlines (concat collapsed_document))).
Proof.
  rewrite universal_newlines_id by (cbv; intuition discriminate).
  rewrite lines_of_outputs
    by (unfold collapsed_document; repeat apply Forall_cons; try apply Forall_nil;
        eexists; reflexivity).
  vm_compute flat_map.
  repeat apply Forall_cons; try apply Forall_nil; intros H;
    first [discriminate H | split; reflexivity].
Defined.

Lemma second_run_witness :
  exists written n,
    target (snd (main {| target := Text (concat collapsed_document); log := [] |}))
    = Text written
    /\ main (snd (main {| target := Text (concat collapsed_document); log := [] |}))
       = (inr tt,
          {| target := Text written;
             log := log (snd (main {| target := Text (concat collapsed_document);
                                      log := [] |}))
                    ++ [Read; Write written; Print n n; PrintExpansion 0] |}).
Proof.
  exact (second_run {| target := Text (concat collapsed_document); log := [] |}
                    (concat collapsed_document) eq_refl collapsed_text_tame).
Defined.

(** * The second pass over what the first pass settled *)

Section Settled.








Lemma inert_settled (out : str) : inert out -> settled out.
Proof.
  intros [Hf He]. right.
  destruct (no_fence_rules true out Hf) as (_ & Hc & Hg).
  unfold closes in Hc. rewrite andb_true_r in Hc.
  split; [assumption|]. split; [assumption | now left].
Qed.

Lemma Forall_settles_step (inside : bool) (outs : list str) :
  Forall settled outs -> settles_step inside outs.
Proof.
  intros H. destruct H as [|first others Hf Ho]; [exact I|].
  split; [now left | assumption].
Qed.

(** Tame lines are settled by the first pass. *)
Lemma tame_settles (lines : list str) (inside : bool) :
  Forall tame lines ->
  Forall (fun step : bool * str * list str =>
            snd step = [snd (fst step)]
            \/ settles_step (fst (fst step)) (snd step))
         (steps inside lines).
Proof.
  intros H. revert inside. induction H as [|line rest Ht Hrest IH]; intros inside;
    [constructor|].
  cbn [steps]. constructor; [|apply IH]. cbn [fst snd].
  destruct (opens line) eqn:Ho.
  { left. now destruct (step_opens inside line Ho). }
  destruct (closes inside line) eqn:Hc.
  { left. now destruct (step_closes inside line Ho Hc). }
  destruct (glued line) eqn:Hg.
  { destruct (Ht (glued_has_fence line Hg)) as [_ H]. congruence. }
  destruct (collapsed inside line) eqn:Hx.
  - right. destruct (step_collapsed inside line Ho Hc Hg Hx) as [-> _].
    unfold collapsed in Hx. apply andb_true_iff in Hx as [Hx _].
    apply andb_true_iff in Hx as [_ Hesc].
    apply Forall_settles_step.
    eapply Forall_impl; [intros out Hout; apply inert_settled; exact Hout|].
    apply expand_inert; [assumption|].
    apply not_true_false. intros Hf. destruct (Ht Hf) as [H _]. congruence.
  - left. now destruct (step_other inside line Ho Hc Hg Hx).
Qed.



End Settled.

(** * Documents that the first pass settles *)

Section SettledLines.

Lemma inert_rstrip (s : str) : inert s -> inert (Py.rstrip s ++ NL).
Proof.
  intros [Hf He]. destruct (rstrip_prefix s) as [b Hb].
  assert (Hocc : forall p, occurs p (Py.rstrip s) -> occurs p s).
  { intros p H. rewrite Hb. now apply occurs_app_l. }
  split; apply contains_false_iff; intros H;
    apply (occurs_snoc _ 10%N) in H; try pattern_side; apply Hocc in H.
  - apply contains_false_iff in Hf. now apply Hf.
  - apply contains_false_iff in He. now apply He.
Qed.

Lemma expand_settled (rest : str) :
  Py.contains fence rest = false -> Forall settled (fix_code_block_line rest).
Proof.
  intros Hf. destruct (Py.contains esc rest) eqn:He.
  - eapply Forall_impl; [intros out Hout; apply inert_settled; exact Hout|].
    now apply expand_inert.
  - rewrite expand_plain by assumption. constructor; [|constructor].
    apply inert_settled. now split.
Qed.

Lemma glued_once_step (inside : bool) (line : str) :
  glued_once line ->
  emitted inside line = [line] \/ settles_step inside (emitted inside line).
Proof.
  intros (i & Hi & Hprefix & Hrest).
  destruct (opens line) eqn:Ho.
  { left. now destruct (step_opens inside line Ho). }
  destruct (closes inside line) eqn:Hc.
  { left. now destruct (step_closes inside line Ho Hc). }
  destruct (glued line) eqn:Hg.
  - right. destruct (step_glued inside line i Ho Hc Hg Hi) as [-> _].
    apply Forall_settles_step. apply Forall_app. split.
    + destruct (0 <? i); [|constructor]. constructor; [|constructor].
      now apply inert_settled, inert_rstrip.
    + constructor; [now left | now apply expand_settled].
  - left. apply step_other; try assumption.
    unfold glued in Hg. unfold opens in Ho. apply orb_false_iff in Ho as [Ho _].
    unfold Py.contains in Hg. rewrite Hi, Ho in Hg. simpl in Hg.
    rewrite andb_true_r in Hg. apply Z.ltb_ge in Hg.
    unfold collapsed.
    replace (150 <? Py.len line)%Z with false by (symmetry; apply Z.ltb_ge; lia).
    apply andb_false_r.
Qed.

Lemma tame_step (inside : bool) (line : str) :
  tame line ->
  emitted inside line = [line] \/ settles_step inside (emitted inside line).
Proof.
  intros Ht.
  pose proof (tame_settles [line] inside (Forall_cons _ Ht (Forall_nil _))) as H.
  cbn [steps] in H. inversion H as [|? ? Hstep _]; subst. exact Hstep.
Qed.

(** The first pass settles every document each of whose lines is tame or
    has the fence glued once. *)
Lemma tame_or_glued_once_settles (lines : list str) :
  Forall (fun line => tame line \/ glued_once line) lines -> settles lines.
Proof.
  unfold settles. generalize false.
  intros inside H. revert inside.
  induction H as [|line rest Hline Hrest IH]; intros inside; [constructor|].
  cbn [steps]. constructor; [|apply IH]. cbn [fst snd].
  destruct Hline as [Ht|Hg]; [now apply tame_step | now apply glued_once_step].
Qed.

End SettledLines.




